(** * CT-NeRF: ray geometry, sampling and volume assembly

    A shallow embedding of [ctnerf/rays.py] and
    [ctnerf/image_creation/ct_creation.py].

    Tensors are lists: a tensor of shape (B, N) is a list of B rows, each a
    list of N scalars; a tensor of shape (B, 2) or (B, 3) whose second axis
    has a fixed meaning (ray bounds, positions, headings) is a list of pairs
    or triples.

    Scalars are exact: the functions that use only field operations and
    comparisons are written over the rationals [Q] (every finite floating
    point number is a rational, and the definitions compute), the functions
    that call [sqrt], [cos], [sin] or [exp] are written over the reals [R].
    Rounding, overflow, infinities and NaN inputs are outside the model; the
    one NaN the source handles itself (the square root of a negative
    discriminant) is modelled explicitly. *)

From Stdlib Require Import List ZArith QArith Qround Reals Lia Psatz.
From Stdlib Require Import Orders Sorting Mergesort Permutation.
Import ListNotations.

(** ** Elementwise operations on list-tensors *)

Module Tensor.

Section Elementwise.
Context {A B C : Type}.

(** Elementwise binary operation on two aligned axes. *)
Definition map2 (f : A -> B -> C) (x : list A) (y : list B) : list C :=
  map (fun p => f (fst p) (snd p)) (combine x y).
End Elementwise.

Section Rows.
Context {A : Type}.

(** [torch.cat([x, y], dim=1)] for x of shape (B, n) and y of shape (B, m). *)
Definition cat_dim1 (x y : list (list A)) : list (list A) :=
  map2 (@app A) x y.
End Rows.

End Tensor.

(** ** rays.py *)

Module QOrder <: TotalLeBool.
Definition t : Type := Q.
Definition leb : t -> t -> bool := Qle_bool.
Theorem leb_total : forall a1 a2, leb a1 a2 = true \/ leb a2 a1 = true.
Proof.
  intros a1 a2. unfold leb. rewrite !Qle_bool_iff.
  destruct (Qlt_le_dec a1 a2) as [Hlt | Hle].
  - left. apply Qlt_le_weak. exact Hlt.
  - right. exact Hle.
Qed.
End QOrder.

Module QSort := Sort QOrder.

Module Rays.

Import Tensor.
Local Open Scope Q_scope.

(** A point or direction: one row of a tensor of shape (B, 3). *)
Definition vec3 : Type := (Q * Q * Q)%type.

(** [torch.ones([B, 1])]. *)
Definition ones (B : nat) : list (list Q) := repeat [1] B.

(** First differences of one row: what [torch.diff] computes along the
    sample axis. *)
Fixpoint diff (row : list Q) : list Q :=
  match row with
  | a :: (b :: _) as rest => (b - a) :: diff rest
  | _ => []
  end.

(** [torch.diff(x, dim=1, append=a)]: the rows of [a] are appended to the
    rows of [x] before differencing. *)
Definition torch_diff_append (x a : list (list Q)) : list (list Q) :=
  map diff (cat_dim1 x a).

(** [get_sampling_distances(t_samples, ray_bounds)].  [ray_bounds] has shape
    (B, 2), one (near, far) pair per ray; [ray_bounds[:, 1:]] keeps the far
    bound as a column of shape (B, 1). *)
Definition get_sampling_distances
    (t_samples : list (list Q)) (ray_bounds : option (list (Q * Q)))
    : list (list Q) :=
  let B := length t_samples in
  let ray_limit :=
    match ray_bounds with
    | Some rb => map2 (map2 Qmult) (ones B) (map (fun b => [snd b]) rb)
    | None => map (map (fun x => x * 2)) (ones B)
    end in
  torch_diff_append t_samples ray_limit.

(** [start_pos.unsqueeze(1) + t_samples.unsqueeze(2) * heading_vector.unsqueeze(1)]
    reshaped to (B * N, 3): the points [start + t * heading], ray by ray. *)
Definition point_at (start heading : vec3) (t : Q) : vec3 :=
  let '(a, b, c) := start in
  let '(vx, vy, vz) := heading in
  (a + t * vx, b + t * vy, c + t * vz).

Definition sampled_points
    (start_pos heading_vector : list vec3) (t_samples : list (list Q))
    : list vec3 :=
  flat_map (fun r => map (point_at (fst (fst r)) (snd (fst r))) (snd r))
           (combine (combine start_pos heading_vector) t_samples).

(** [get_coarse_samples].  The sampling function is injected by the caller;
    the device argument carries no data and is left out. *)
Definition get_coarse_samples
    (sampling_function :
       nat -> nat -> option Q -> option (list (Q * Q)) -> list (list Q))
    (start_pos heading_vector : list vec3)
    (n_samples batch_size : nat)
    (ray_bounds : option (list (Q * Q)))
    (plateau_ratio : option Q)
    : list (list Q) * list vec3 * list (list Q) :=
  let t_samples := sampling_function n_samples batch_size plateau_ratio ray_bounds in
  let sampling_distances := get_sampling_distances t_samples ray_bounds in
  (t_samples, sampled_points start_pos heading_vector t_samples, sampling_distances).

(** [torch.sort(t, dim=1)[0]]: every row sorted ascending. *)
Definition sort_dim1 (t : list (list Q)) : list (list Q) := map QSort.sort t.

(** The merged, sorted t values of the fine pass: the local [t_samples] of
    [get_fine_samples] after its [torch.sort] line. *)
Definition merged_t_samples
    (coarse_sample_ts fine_ts : list (list Q)) : list (list Q) :=
  sort_dim1 (cat_dim1 coarse_sample_ts fine_ts).

(** [get_fine_samples].  [ray_sampling.edge_focused_fine_sampling] lives in
    another module of the package and is taken as a parameter. *)
Definition get_fine_samples
    (edge_focused_fine_sampling :
       nat -> list (list Q) -> list (list Q) -> list (list Q))
    (start_pos heading_vector : list vec3)
    (ray_bounds : list (Q * Q))
    (coarse_sample_ts coarse_sample_values coarse_sampling_distances : list (list Q))
    (n_samples : nat)
    : list vec3 * list (list Q) :=
  let t_samples :=
    edge_focused_fine_sampling n_samples coarse_sample_values coarse_sampling_distances in
  let t_samples := merged_t_samples coarse_sample_ts t_samples in
  let sampling_distances := get_sampling_distances t_samples (Some ray_bounds) in
  (sampled_points start_pos heading_vector t_samples, sampling_distances).

(** *** The part of rays.py that needs square roots, trigonometry and
    exponentials, over the reals *)

Local Close Scope Q_scope.
Local Open Scope R_scope.

Definition rvec3 : Type := (R * R * R)%type.

(** A 3x3 matrix, row by row. *)
Definition mat3 : Type := (rvec3 * rvec3 * rvec3)%type.

(** [torch.sum(x, dim=1)] on one row. *)
Definition row_sum (row : list R) : R := fold_right Rplus 0 row.

(** [beer_lambert_law(attenuation_coeffs, distances, s, k, slice_size_cm)]. *)
Definition beer_lambert_law
    (attenuation_coeffs distances : list (list R))
    (s k : option R) (slice_size_cm : R) : list R :=
  let distances := map (map (fun d => d * slice_size_cm / 2)) distances in
  let exp_ :=
    map (fun row => exp (- row_sum row))
        (map2 (map2 Rmult) attenuation_coeffs distances) in
  match s, k with
  | Some s, Some k => map (fun e => ln (e + k) / s) exp_
  | _, _ => exp_
  end.

(** [_create_z_rotation_matrix(angles)]: the rotation matrices and the
    heading vectors. *)
Definition _create_z_rotation_matrix (angles : list R) : list mat3 * list rvec3 :=
  let cos_angles := map cos angles in
  let sin_angles := map sin angles in
  let rotation_matrices :=
    map2 (fun c s => ((c, - s, 0), (s, c, 0), (0, 0, 1))) cos_angles sin_angles in
  let heading_vector :=
    map2 (fun c s => (- c, - s, - 0)) cos_angles sin_angles in
  (rotation_matrices, heading_vector).

(** The value of [torch.sqrt] at a real argument: not-a-number below zero. *)
Inductive sqrt_result : Type :=
| NaN
| Num (x : R).

Definition torch_sqrt (x : R) : sqrt_result :=
  if Rlt_dec x 0 then NaN else Num (sqrt x).

(** [torch.nan_to_num(v, nan=d)]. *)
Definition nan_to_num (v : sqrt_result) (nan : R) : R :=
  match v with
  | NaN => nan
  | Num x => x
  end.

(** The two locals of [_get_ray_bounds] the roots are built from. *)
Definition p_half_of (start heading : rvec3) : R :=
  let '(a, b, _) := start in
  let '(v_x, v_y, _) := heading in
  a * v_x + b * v_y.

Definition q_of (start : rvec3) : R :=
  let '(a, b, _) := start in
  a ^ 2 + b ^ 2 - 1.

(** [_get_ray_bounds(start_pos, heading_vector)], one (t1, t2) per ray. *)
Definition _get_ray_bounds (start_pos heading_vector : list rvec3) : list (R * R) :=
  map2 (fun start heading =>
          let p_half := p_half_of start heading in
          let q := q_of start in
          let sq_root := torch_sqrt (p_half ^ 2 - q) in
          let sq_root := nan_to_num sq_root 0 in
          let t1 := - p_half - sq_root in
          let t2 := - p_half + sq_root in
          (t1, t2))
       start_pos heading_vector.

(** [torch.bmm(rotation_matrix, pos.unsqueeze(2)).squeeze(2)] on one ray. *)
Definition mat_vec (m : mat3) (v : rvec3) : rvec3 :=
  let '(r0, r1, r2) := m in
  let dot := fun (r : rvec3) =>
    let '(m0, m1, m2) := r in
    let '(x, y, z) := v in
    m0 * x + m1 * y + m2 * z in
  (dot r0, dot r1, dot r2).

(** [2 * pixel_pos / (img_shape - 1) - 1] on one pixel. *)
Definition normalize_pixel (pixel : R * R) (img_shape : R * R) : R * R :=
  (2 * fst pixel / (fst img_shape - 1) - 1,
   2 * snd pixel / (snd img_shape - 1) - 1).

(** [get_rays(pixel_pos, angles, img_shape)]. *)
Definition get_rays
    (pixel_pos : list (R * R)) (angles : list R) (img_shape : R * R)
    : list rvec3 * list rvec3 * list (R * R) :=
  let normalized_pos := map (fun p => normalize_pixel p img_shape) pixel_pos in
  let normalized_pos := map (fun n => (1, fst n, snd n)) normalized_pos in
  let '(rotation_matrix, heading_vector) := _create_z_rotation_matrix angles in
  let start_pos := map2 mat_vec rotation_matrix normalized_pos in
  let ray_bounds := _get_ray_bounds start_pos heading_vector in
  (start_pos, heading_vector, ray_bounds).

End Rays.

(** ** image_creation/ct_creation.py *)

Module CtCreation.

Import Tensor.
Local Open Scope Q_scope.

Definition triple (A : Type) : Type := (A * A * A)%type.

Definition vec3 : Type := triple Q.

(** The model is queried on a batch of points and returns one value per row
    of its output. *)
Definition XRayModel : Type := list vec3 -> list Q.

Inductive error : Type :=
| UnboundLocalError
| AttributeError
| RuntimeError.

Inductive result (A : Type) : Type :=
| Ok (a : A)
| Err (e : error).
Arguments Ok {A} a.
Arguments Err {A} e.

Definition bind {A B : Type} (r : result A) (k : A -> result B) : result B :=
  match r with
  | Ok a => k a
  | Err e => Err e
  end.

Notation "x <- r ;; k" := (bind r (fun x => k))
  (at level 61, r at next level, right associativity).

(** [conf.xray_metadata]: the detector size in pixels and its spacing. *)
Record XrayMetadata : Type := {
  size : Z * Z;
  spacing : Q * Q
}.

Record InferenceConfig : Type := {
  xray_metadata : XrayMetadata;
  voxel_spacing : option (triple Q);
  image_size : option (triple Z);
  fine_model : option XRayModel;
  coarse_model : option XRayModel;
  chunk_size : nat;
  attenuation_scaling_factor : option Q
}.

Definition map3 {A B : Type} (f : A -> B) (x : triple A) : triple B :=
  let '(a, b, c) := x in (f a, f b, f c).

Definition zip3 {A B C : Type} (f : A -> B -> C) (x : triple A) (y : triple B)
    : triple C :=
  let '(a, b, c) := x in
  let '(a', b', c') := y in
  (f a a', f b b', f c c').

(** numpy's [astype(int)] on a float: truncation towards zero. *)
Definition astype_int (x : Q) : Z := Z.quot (Qnum x) (Zpos (Qden x)).

(** [[size[0]] + size] and [[spacing[0]] + spacing]. *)
Definition original_size (conf : InferenceConfig) : triple Q :=
  let '(s0, s1) := size (xray_metadata conf) in
  (inject_Z s0, inject_Z s0, inject_Z s1).

Definition original_spacing (conf : InferenceConfig) : triple Q :=
  let '(p0, p1) := spacing (xray_metadata conf) in
  (p0, p0, p1).

(** The locals [image_size] and [voxel_spacing] of [generate_ct] after its
    [if]/[elif]; [None] is a local that was never bound.  In the spacing
    branch the quotient and product are exact here, where numpy rounds them
    to float64 before [astype(int)] truncates: the two agree whenever the
    float64 result is exact (as for 256 / 1.0 * 2.0), and may differ by one
    voxel otherwise. *)
Definition determine_size (conf : InferenceConfig)
    : option (triple Z) * option (triple Q) :=
  match voxel_spacing conf with
  | Some new_spacing =>
      let image_size :=
        map3 astype_int
             (zip3 Qmult (zip3 Qdiv (original_size conf) (original_spacing conf))
                   new_spacing) in
      (Some image_size, Some new_spacing)
  | None =>
      match image_size conf with
      | Some new_size =>
          let voxel_spacing :=
            zip3 Qdiv (zip3 Qmult (original_spacing conf) (original_size conf))
                 (map3 inject_Z new_size) in
          (Some new_size, Some voxel_spacing)
      | None => (None, None)
      end
  end.

(** One element of the CPU output buffer, with the number of times it has
    been stored to (a ghost counter: the source keeps none). *)
Record cell : Type := {
  value : Q;
  writes : nat
}.

Definition store (c : cell) (v : Q) : cell :=
  {| value := v; writes := S (writes c) |}.

(** [torch.empty(n)]: [n] elements of unspecified content. *)
Definition torch_empty (uninit : nat -> Q) (n : nat) : list cell :=
  map (fun i => {| value := uninit i; writes := 0 |}) (seq 0 n).

(** [torch.linspace(lo, hi, n)]. *)
Definition linspace (lo hi : Q) (n : nat) : list Q :=
  map (fun i => lo + inject_Z (Z.of_nat i) * ((hi - lo) / inject_Z (Z.of_nat (n - 1))))
      (seq 0 n).

(** [torch.stack(torch.meshgrid((x, y, z), indexing="xy"), dim=-1).view(-1, 3)]:
    the grid has shape (len y, len x, len z) and is flattened row-major. *)
Definition meshgrid_xy_flat (x y z : list Q) : list vec3 :=
  flat_map (fun yi => flat_map (fun xj => map (fun zk => (xj, yi, zk)) z) x) y.

(** [t.split(chunk_size, dim=0)]: chunks of [chunk_size] rows, the last one
    shorter; at least one chunk, also for an empty tensor. *)
Definition split {A : Type} (l : list A) (chunk_size : nat) : result (list (list A)) :=
  match chunk_size, l with
  | O, [] => Ok [[]]
  | O, _ :: _ => Err RuntimeError
  | S _, _ =>
      let num_splits := Nat.max ((length l + chunk_size - 1) / chunk_size) 1 in
      Ok (map (fun i => firstn chunk_size (skipn (i * chunk_size) l)) (seq 0 num_splits))
  end.

(** [output[start:stop] = src] on a one-dimensional buffer.  The slice bounds
    are clipped to the buffer; [src] must have the length of the slice or
    length one (it is then broadcast), anything else is a shape error. *)
Definition slice_assign (output : list cell) (start stop : nat) (src : list Q)
    : result (list cell) :=
  let lo := Nat.min start (length output) in
  let hi := Nat.max lo (Nat.min stop (length output)) in
  let k := (hi - lo)%nat in
  let write := fun src' =>
    Ok (firstn lo output ++ map2 store (firstn k (skipn lo output)) src'
        ++ skipn hi output) in
  if (length src =? k)%nat then write src
  else match src with
       | [v] => write (repeat v k)
       | _ => Err RuntimeError
       end.

(** The body of the [for i, chunk in enumerate(coords)] loop, over the
    remaining (index, chunk) pairs. *)
Fixpoint inference_loop (model : XRayModel) (chunks : list (nat * list vec3))
    (chunk_size : nat) (output : list cell) : result (list cell) :=
  match chunks with
  | [] => Ok output
  | (i, chunk) :: rest =>
      let output_chunk := model chunk in
      output' <- slice_assign output (i * chunk_size) ((i + 1) * chunk_size) output_chunk ;;
      inference_loop model rest chunk_size output'
  end.

(** [enumerate]. *)
Definition enumerate {A : Type} (l : list A) : list (nat * A) :=
  combine (seq 0 (length l)) l.

(** Lines 87-94 of [run_inference]: the output buffer is allocated, the
    coordinates are split and the model is queried chunk by chunk. *)
Definition chunked_query (model : XRayModel) (coords : list vec3)
    (chunk_size : nat) (uninit : nat -> Q) : result (list cell) :=
  let output := torch_empty uninit (length coords) in
  chunks <- split coords chunk_size ;;
  inference_loop model (enumerate chunks) chunk_size output.

(** [x.clamp_min(m)]. *)
Definition clamp_min (x m : Q) : Q := if Qle_bool m x then x else m.

Section Calibration.
(** [MU_AIR] and [MU_WATER] are the constants of [ctnerf.constants]; their
    values are parameters here. *)
Variables MU_AIR MU_WATER : Q.

(** The output after the optional [output * attenuation_scaling_factor]. *)
Definition scale_output (attenuation_scaling_factor : option Q) (output : list Q)
    : list Q :=
  match attenuation_scaling_factor with
  | Some f => map (fun x => x * f) output
  | None => output
  end.

(** Lines 96-100 of [run_inference]: conversion to Hounsfield units. *)
Definition to_hounsfield (attenuation_scaling_factor : option Q) (output : list Q)
    : list Q :=
  let output := scale_output attenuation_scaling_factor output in
  let output := map (fun x => 1000 * (x - MU_WATER) / (MU_WATER - MU_AIR)) output in
  map (fun x => clamp_min x (-1024)) output.

(** [run_inference], up to the flat calibrated tensor; the final [reshape]
    and [permute] only re-index it. *)
Definition run_inference (model : option XRayModel) (img_size : triple Z)
    (chunk_size : nat) (attenuation_scaling_factor : option Q)
    (uninit : nat -> Q) : result (list Q) :=
  match model with
  | None => Err AttributeError
  | Some model =>
      let '(n0, n1, n2) := img_size in
      if ((n0 <? 0) || (n1 <? 0) || (n2 <? 0))%Z then Err RuntimeError
      else
        let x := linspace (-1) 1 (Z.to_nat n0) in
        let y := linspace (-1) 1 (Z.to_nat n1) in
        let z := linspace (-1) 1 (Z.to_nat n2) in
        let coords := meshgrid_xy_flat x y z in
        output <- chunked_query model coords chunk_size uninit ;;
        Ok (to_hounsfield attenuation_scaling_factor (map value output))
  end.

(** [a or b] on two optional models. *)
Definition or_model (a b : option XRayModel) : option XRayModel :=
  match a with
  | Some _ => a
  | None => b
  end.

(** [generate_ct], up to the volume and the spacing handed to
    [tensor_to_sitk].  The arguments of the [run_inference] call are
    evaluated left to right, so an unbound [image_size] is reported before
    the call is made. *)
Definition generate_ct (conf : InferenceConfig) (uninit : nat -> Q)
    : result (list Q * triple Q) :=
  let '(image_size, voxel_spacing) := determine_size conf in
  let model := or_model (fine_model conf) (coarse_model conf) in
  match image_size with
  | None => Err UnboundLocalError
  | Some image_size =>
      output <- run_inference model image_size (chunk_size conf)
                              (attenuation_scaling_factor conf) uninit ;;
      match voxel_spacing with
      | None => Err UnboundLocalError
      | Some voxel_spacing => Ok (output, voxel_spacing)
      end
  end.
End Calibration.

End CtCreation.

(** ** Specification predicates *)

(** The distance rule as the specification words it: sample [i] gets
    [t[i+1] - t[i]], the last sample gets [far - t[last]]. *)
Definition distance_rule (t : list Q) (far : Q) (distances : list Q) : Prop :=
  length distances = length t /\
  (forall i, (S i < length t)%nat ->
     (nth i distances 0 == nth (S i) t 0 - nth i t 0)%Q) /\
  (t <> [] ->
     (nth (length t - 1) distances 0 == far - nth (length t - 1) t 0)%Q).

(** Every row of t values is sorted ascending. *)
Definition ascending_rows (t : list (list Q)) : Prop := Forall (Sorted Qle) t.

(** Every t value of ray [b] lies within the bounds of ray [b]. *)
Definition within_bounds (t : list (list Q)) (ray_bounds : list (Q * Q)) : Prop :=
  Forall2 (fun row bounds => Forall (fun x => fst bounds <= x <= snd bounds)%Q row)
          t ray_bounds.

(** No t value of ray [b] exceeds the far bound of ray [b]. *)
Definition below_far_bound (t : list (list Q)) (ray_bounds : list (Q * Q)) : Prop :=
  Forall2 (fun row bounds => Forall (fun x => x <= snd bounds)%Q row) t ray_bounds.

(** All spacing distances of a batch are non-negative. *)
Definition distances_nonneg (distances : list (list Q)) : Prop :=
  Forall (Forall (Qle 0)) distances.

(** The configuration of the sizing example: a 256-pixel detector at 1.0 mm
    and a requested voxel spacing of 2.0 mm, no voxel count. *)
Definition sizing_example_conf : CtCreation.InferenceConfig :=
  {| CtCreation.xray_metadata :=
       {| CtCreation.size := (256, 256)%Z; CtCreation.spacing := (1.0, 1.0)%Q |};
     CtCreation.voxel_spacing := Some (2.0, 2.0, 2.0)%Q;
     CtCreation.image_size := None;
     CtCreation.fine_model := None;
     CtCreation.coarse_model := None;
     CtCreation.chunk_size := 4096;
     CtCreation.attenuation_scaling_factor := None |}.

(** The physical extent [size * spacing] along each axis. *)
Definition extent (size : CtCreation.triple Z) (spacing : CtCreation.triple Q)
    : CtCreation.triple Q :=
  CtCreation.zip3 Qmult (CtCreation.map3 inject_Z size) spacing.

(** Componentwise equality of rational triples. *)
Definition triple_eq (x y : CtCreation.triple Q) : Prop :=
  let '(a, b, c) := x in
  let '(a', b', c') := y in
  (a == a' /\ b == b' /\ c == c')%Q.

(** A configuration with its requested voxel count removed. *)
Definition without_image_size (conf : CtCreation.InferenceConfig)
    : CtCreation.InferenceConfig :=
  {| CtCreation.xray_metadata := CtCreation.xray_metadata conf;
     CtCreation.voxel_spacing := CtCreation.voxel_spacing conf;
     CtCreation.image_size := None;
     CtCreation.fine_model := CtCreation.fine_model conf;
     CtCreation.coarse_model := CtCreation.coarse_model conf;
     CtCreation.chunk_size := CtCreation.chunk_size conf;
     CtCreation.attenuation_scaling_factor :=
       CtCreation.attenuation_scaling_factor conf |}.

(** A configuration that supplies both a voxel spacing and a voxel count,
    for a 2-pixel detector and a model that answers 0.2 everywhere. *)
Definition both_supplied_conf : CtCreation.InferenceConfig :=
  {| CtCreation.xray_metadata :=
       {| CtCreation.size := (2, 2)%Z; CtCreation.spacing := (1, 1)%Q |};
     CtCreation.voxel_spacing := Some (1, 1, 1)%Q;
     CtCreation.image_size := Some (4, 4, 4)%Z;
     CtCreation.fine_model := Some (map (fun _ => 0.2%Q));
     CtCreation.coarse_model := None;
     CtCreation.chunk_size := 3;
     CtCreation.attenuation_scaling_factor := None |}.

(** A point lies on the unit-cylinder boundary x^2 + y^2 = 1. *)
Definition on_unit_cylinder (p : Rays.rvec3) : Prop :=
  let '(x, y, _) := p in (x ^ 2 + y ^ 2 = 1)%R.

(** The discriminant [p_half^2 - q] of the cylinder intersection. *)
Definition discriminant (start heading : Rays.rvec3) : R :=
  (Rays.p_half_of start heading ^ 2 - Rays.q_of start)%R.

(** No (s, k) scaling is supplied unless both are. *)
Definition no_scaling (s k : option R) : Prop := s = None \/ k = None.

(** The cells a completed store of the model's values leaves behind: the
    value of the field at each point, stored once. *)
Definition written (field : CtCreation.vec3 -> Q) (points : list CtCreation.vec3)
    : list CtCreation.cell :=
  map (fun p => {| CtCreation.value := field p; CtCreation.writes := 1 |}) points.

(** The output buffer once the first [k] elements have been stored. *)
Definition progress (field : CtCreation.vec3 -> Q) (coords : list CtCreation.vec3)
    (uninit : nat -> Q) (k : nat) : list CtCreation.cell :=
  written field (firstn k coords)
  ++ skipn k (CtCreation.torch_empty uninit (length coords)).

(** The sum of one row of rationals. *)
Definition row_total (row : list Q) : Q := fold_right Qplus 0%Q row.

(** The ray of [_get_ray_bounds]: (a + t * v_x, b + t * v_y, c), over the
    reals. *)
Definition ray_point (start heading : Rays.rvec3) (t : R) : Rays.rvec3 :=
  let '(a, b, c) := start in
  let '(v_x, v_y, _) := heading in
  (a + t * v_x, b + t * v_y, c)%R.

(** A heading of magnitude 1 in the projection plane. *)
Definition unit_heading (heading : Rays.rvec3) : Prop :=
  let '(v_x, v_y, _) := heading in (v_x ^ 2 + v_y ^ 2 = 1)%R.

(** * Properties *)

(** ** The embedding on small inputs *)

Example get_sampling_distances_three_samples :
  Forall2 (Forall2 Qeq)
    (Rays.get_sampling_distances [[0.1; 0.5; 0.9]%Q] (Some [(0, 1)%Q]))
    [[0.4; 0.4; 0.1]%Q] /\
  Forall2 (Forall2 Qeq)
    (Rays.get_sampling_distances [[0.1; 0.5; 0.9]%Q] None)
    [[0.4; 0.4; 1.1]%Q].
Proof. split; repeat constructor; vm_compute; reflexivity. Qed.

Example get_sampling_distances_no_samples :
  Rays.get_sampling_distances [[]] None = [[]].
Proof. reflexivity. Qed.

Example sampled_points_two_rays :
  Rays.sampled_points [(1, 0, 0); (0, 1, 0)]%Q [(- (1), 0, 0); (0, - (1), 0)]%Q
                      [[0; 1]; [2]]%Q
  = [(1 + 0 * - (1), 0 + 0 * 0, 0 + 0 * 0);
     (1 + 1 * - (1), 0 + 1 * 0, 0 + 1 * 0);
     (0 + 2 * 0, 1 + 2 * - (1), 0 + 2 * 0)]%Q.
Proof. reflexivity. Qed.

Example split_uneven :
  CtCreation.split [1; 2; 3; 4; 5]%nat 2 = CtCreation.Ok [[1; 2]; [3; 4]; [5]]%nat /\
  CtCreation.split [1; 2; 3; 4]%nat 2 = CtCreation.Ok [[1; 2]; [3; 4]]%nat /\
  CtCreation.split [1; 2]%nat 5 = CtCreation.Ok [[1; 2]]%nat /\
  CtCreation.split (@nil nat) 2 = CtCreation.Ok [[]] /\
  CtCreation.split [1; 2]%nat 0 = CtCreation.Err CtCreation.RuntimeError.
Proof. repeat split. Qed.

Example meshgrid_xy_order :
  CtCreation.meshgrid_xy_flat [1; 2]%Q [3; 4]%Q [5]%Q
  = [(1, 3, 5); (2, 3, 5); (1, 4, 5); (2, 4, 5)]%Q.
Proof. reflexivity. Qed.

Example linspace_three_points :
  Forall2 Qeq (CtCreation.linspace (- (1)) 1 3) [- (1); 0; 1]%Q /\
  CtCreation.linspace (- (1)) 1 1 = [- (1)]%Q /\
  CtCreation.linspace (- (1)) 1 0 = [].
Proof.
  split; [repeat constructor; vm_compute; reflexivity |].
  split; reflexivity.
Qed.

Example slice_assign_shape_mismatch :
  CtCreation.slice_assign (CtCreation.torch_empty (fun _ => 0%Q) 4) 0 3 [1; 2]%Q
  = CtCreation.Err CtCreation.RuntimeError /\
  CtCreation.slice_assign (CtCreation.torch_empty (fun _ => 0%Q) 4) 2 9 [1; 2]%Q
  = CtCreation.Ok [ {| CtCreation.value := 0; CtCreation.writes := 0 |};
                    {| CtCreation.value := 0; CtCreation.writes := 0 |};
                    {| CtCreation.value := 1; CtCreation.writes := 1 |};
                    {| CtCreation.value := 2; CtCreation.writes := 1 |} ]%Q.
Proof. split; reflexivity. Qed.

Example astype_int_truncates :
  CtCreation.astype_int 2.7 = 2%Z /\ CtCreation.astype_int (- 2.7) = (- 2)%Z.
Proof. split; reflexivity. Qed.

(** ** List-tensor lemmas *)

Lemma nth_error_combine {A B : Type} (x : list A) (y : list B) (n : nat) (a : A) (b : B) :
  nth_error x n = Some a -> nth_error y n = Some b ->
  nth_error (combine x y) n = Some (a, b).
Proof.
  revert y n. induction x as [| x0 x IH]; intros [| y0 y] [| n]; simpl;
    try discriminate.
  - intros Ha Hb. congruence.
  - intros Ha Hb. apply IH; assumption.
Qed.

Lemma nth_error_map2 {A B C : Type} (f : A -> B -> C) (x : list A) (y : list B)
    (n : nat) (a : A) (b : B) :
  nth_error x n = Some a -> nth_error y n = Some b ->
  nth_error (Tensor.map2 f x y) n = Some (f a b).
Proof.
  intros Ha Hb. unfold Tensor.map2.
  rewrite nth_error_map, (nth_error_combine x y n a b Ha Hb). reflexivity.
Qed.

Lemma map2_length {A B C : Type} (f : A -> B -> C) (x : list A) (y : list B) :
  length (Tensor.map2 f x y) = Nat.min (length x) (length y).
Proof. unfold Tensor.map2. rewrite length_map, length_combine. reflexivity. Qed.

(** ** The distance rule of [get_sampling_distances] *)

Section DistanceRule.
Import Rays.
Local Open Scope Q_scope.

Lemma diff_append_length (t : list Q) (x : Q) :
  length (diff (t ++ [x])) = length t.
Proof.
  induction t as [| a t IH]; [reflexivity |].
  destruct t as [| b t]; [reflexivity |].
  change (S (length (diff ((b :: t) ++ [x]))) = S (length (b :: t))).
  rewrite IH. reflexivity.
Qed.

Lemma diff_append_inner (t : list Q) (x : Q) (i : nat) :
  (S i < length t)%nat ->
  nth i (diff (t ++ [x])) 0 = nth (S i) t 0 - nth i t 0.
Proof.
  revert i. induction t as [| a t IH]; intros i Hi; [simpl in Hi; lia |].
  destruct t as [| b t]; [simpl in Hi; lia |].
  destruct i as [| i]; [reflexivity |].
  change (nth i (diff ((b :: t) ++ [x])) 0 = nth (S i) (b :: t) 0 - nth i (b :: t) 0).
  apply IH. simpl in Hi |- *. lia.
Qed.

Lemma diff_append_last (t : list Q) (x : Q) :
  t <> [] ->
  nth (length t - 1) (diff (t ++ [x])) 0 = x - nth (length t - 1) t 0.
Proof.
  induction t as [| a t IH]; intros Hne; [congruence |].
  destruct t as [| b t]; [reflexivity |].
  assert (IH' := IH ltac:(discriminate)).
  replace (length (a :: b :: t) - 1)%nat with (S (length t)) by (simpl; lia).
  replace (length (b :: t) - 1)%nat with (length t) in IH' by (simpl; lia).
  exact IH'.
Qed.

(** The rows of the result, with bounds and without. *)
Lemma get_sampling_distances_row (t_samples : list (list Q)) (ray_bounds : list (Q * Q))
    (b : nat) (t : list Q) (bounds : Q * Q) :
  nth_error t_samples b = Some t ->
  nth_error ray_bounds b = Some bounds ->
  nth_error (get_sampling_distances t_samples (Some ray_bounds)) b
  = Some (diff (t ++ [1 * snd bounds])).
Proof.
  intros Ht Hb. unfold get_sampling_distances, torch_diff_append, Tensor.cat_dim1.
  assert (Hlt : (b < length t_samples)%nat)
    by (apply nth_error_Some; congruence).
  apply (map_nth_error diff).
  apply nth_error_map2; [exact Ht |].
  change [1 * snd bounds] with (Tensor.map2 Qmult [1] [snd bounds]).
  apply nth_error_map2.
  - unfold ones. apply nth_error_repeat. exact Hlt.
  - apply (map_nth_error (fun b0 : Q * Q => [snd b0])). exact Hb.
Qed.

Lemma get_sampling_distances_row_default (t_samples : list (list Q))
    (b : nat) (t : list Q) :
  nth_error t_samples b = Some t ->
  nth_error (get_sampling_distances t_samples None) b
  = Some (diff (t ++ [1 * 2])).
Proof.
  intros Ht. unfold get_sampling_distances, torch_diff_append, Tensor.cat_dim1.
  assert (Hlt : (b < length t_samples)%nat)
    by (apply nth_error_Some; congruence).
  apply (map_nth_error diff).
  apply nth_error_map2; [exact Ht |].
  apply (map_nth_error (map (fun x : Q => x * 2)) b (ones (length t_samples)) (d := [1])).
  unfold ones. apply nth_error_repeat. exact Hlt.
Qed.

End DistanceRule.

Lemma diff_append_distance_rule (t : list Q) (far x : Q) :
  (x == far)%Q -> distance_rule t far (Rays.diff (t ++ [x])).
Proof.
  intros Hx. unfold distance_rule. split; [apply diff_append_length |]. split.
  - intros i Hi. rewrite diff_append_inner by exact Hi. reflexivity.
  - intros Hne. rewrite diff_append_last by exact Hne. rewrite Hx. reflexivity.
Qed.

(** C1: for every batch, every ray [b] with samples [t] and bounds
    (near, far) gets distances [t[i+1] - t[i]] and, for its last sample,
    [far - t[N-1]]; without ray bounds the far bound is the constant 2. *)
Theorem get_sampling_distances_distance_rule
    (t_samples : list (list Q)) (b : nat) (t : list Q) :
  nth_error t_samples b = Some t ->
  (forall (ray_bounds : list (Q * Q)) (near far : Q),
     nth_error ray_bounds b = Some (near, far) ->
     exists distances,
       nth_error (Rays.get_sampling_distances t_samples (Some ray_bounds)) b
       = Some distances /\
       distance_rule t far distances) /\
  (exists distances,
     nth_error (Rays.get_sampling_distances t_samples None) b = Some distances /\
     distance_rule t 2 distances).
Proof.
  intros Ht. split.
  - intros ray_bounds near far Hb.
    exists (Rays.diff (t ++ [1 * far]%Q)). split.
    + apply (get_sampling_distances_row t_samples ray_bounds b t (near, far) Ht Hb).
    + apply diff_append_distance_rule. ring.
  - exists (Rays.diff (t ++ [1 * 2]%Q)). split.
    + apply get_sampling_distances_row_default. exact Ht.
    + apply diff_append_distance_rule. ring.
Qed.

Lemma get_sampling_distances_distance_rule_witness :
  (exists distances,
     nth_error (Rays.get_sampling_distances [[0.1; 0.5; 0.9]%Q] (Some [(0, 1)%Q])) 0
     = Some distances /\
     distance_rule [0.1; 0.5; 0.9]%Q 1 distances) /\
  (exists distances,
     nth_error (Rays.get_sampling_distances [[0.1; 0.5; 0.9]%Q] None) 0
     = Some distances /\
     distance_rule [0.1; 0.5; 0.9]%Q 2 distances).
Proof.
  destruct (get_sampling_distances_distance_rule
              [[0.1; 0.5; 0.9]%Q] 0 [0.1; 0.5; 0.9]%Q eq_refl)
    as [Hbounds Hdefault].
  split.
  - apply (Hbounds [(0, 1)%Q] 0%Q 1%Q). reflexivity.
  - exact Hdefault.
Defined.

(** ** Sorting, merging and the sign of the distances *)

Lemma nth_error_map2_inv {A B C : Type} (f : A -> B -> C) (x : list A) (y : list B)
    (n : nat) (c : C) :
  nth_error (Tensor.map2 f x y) n = Some c ->
  exists a b, nth_error x n = Some a /\ nth_error y n = Some b /\ c = f a b.
Proof.
  unfold Tensor.map2. revert y n.
  induction x as [| x0 x IH]; intros [| y0 y] [| n]; simpl; try discriminate.
  - intros H. injection H as <-. exists x0, y0. repeat split.
  - intros H. apply IH. exact H.
Qed.

Lemma Sorted_weaken {A : Type} (R R' : A -> A -> Prop) (l : list A) :
  (forall x y, R x y -> R' x y) -> Sorted R l -> Sorted R' l.
Proof.
  intros Himp Hs. induction Hs as [| a l Hs IH Hhd]; constructor.
  - exact IH.
  - destruct Hhd; constructor. apply Himp. assumption.
Qed.

Section SortedRows.
Import Rays.
Local Open Scope Q_scope.

Lemma sort_ascending (l : list Q) : Sorted Qle (QSort.sort l).
Proof.
  apply Sorted_weaken with (R := fun x y => is_true (QOrder.leb x y)).
  - intros x y H. apply Qle_bool_iff. exact H.
  - apply QSort.Sorted_sort.
Qed.

Lemma sort_upper_bound (l : list Q) (far : Q) :
  Forall (fun x => x <= far) l -> Forall (fun x => x <= far) (QSort.sort l).
Proof.
  intros H. eapply Permutation_Forall; [apply QSort.Permuted_sort | exact H].
Qed.

Lemma ascending_append (t : list Q) (x : Q) :
  Sorted Qle t -> Forall (fun y => y <= x) t -> Sorted Qle (t ++ [x]).
Proof.
  intros Hs. induction Hs as [| a l Hs IH Hhd]; intros Hall; simpl.
  - repeat constructor.
  - inversion Hall as [| ? ? Ha Hl]; subst. constructor.
    + apply IH. exact Hl.
    + destruct Hhd as [| b l' Hab]; simpl; constructor; assumption.
Qed.

Lemma diff_ascending_nonneg (l : list Q) :
  Sorted Qle l -> Forall (Qle 0) (diff l).
Proof.
  intros Hs. induction Hs as [| a l Hs IH Hhd]; [constructor |].
  destruct Hhd as [| b l' Hab]; [constructor |].
  change (Forall (Qle 0) ((b - a) :: diff (b :: l'))).
  constructor; [lra | exact IH].
Qed.

Lemma ascending_step (t : list Q) (i : nat) :
  Sorted Qle t -> (S i < length t)%nat -> nth i t 0 <= nth (S i) t 0.
Proof.
  intros Hs. revert i. induction Hs as [| a l Hs IH Hhd]; intros i Hi.
  - simpl in Hi. lia.
  - destruct i as [| i].
    + destruct Hhd as [| b l' Hab]; [simpl in Hi; lia | exact Hab].
    + change (nth i l 0 <= nth (S i) l 0). apply IH. simpl in Hi. lia.
Qed.

(** Every row of the result comes from a row of samples and its bounds. *)
Lemma get_sampling_distances_row_inv (t_samples : list (list Q))
    (ray_bounds : list (Q * Q)) (b : nat) (d : list Q) :
  nth_error (get_sampling_distances t_samples (Some ray_bounds)) b = Some d ->
  exists t bounds,
    nth_error t_samples b = Some t /\ nth_error ray_bounds b = Some bounds /\
    d = diff (t ++ [1 * snd bounds]).
Proof.
  unfold get_sampling_distances, torch_diff_append, Tensor.cat_dim1.
  rewrite nth_error_map. intros H.
  destruct (nth_error (Tensor.map2 _ _ _) b) as [row |] eqn:Hrow; [| discriminate].
  injection H as <-.
  apply nth_error_map2_inv in Hrow as (t & lim & Ht & Hlim & ->).
  apply nth_error_map2_inv in Hlim as (o & f & Ho & Hf & ->).
  rewrite nth_error_map in Hf.
  destruct (nth_error ray_bounds b) as [bounds |] eqn:Hb; [| discriminate].
  injection Hf as <-.
  unfold ones in Ho. apply nth_error_In, repeat_spec in Ho. subst o.
  exists t, bounds. repeat split; assumption.
Qed.

Lemma merged_t_samples_row_inv (coarse fine : list (list Q)) (b : nat) (m : list Q) :
  nth_error (merged_t_samples coarse fine) b = Some m ->
  exists c f,
    nth_error coarse b = Some c /\ nth_error fine b = Some f /\
    m = QSort.sort (c ++ f).
Proof.
  unfold merged_t_samples, sort_dim1, Tensor.cat_dim1.
  rewrite nth_error_map. intros H.
  destruct (nth_error (Tensor.map2 _ _ _) b) as [row |] eqn:Hrow; [| discriminate].
  injection H as <-.
  apply nth_error_map2_inv in Hrow as (c & f & Hc & Hf & ->).
  exists c, f. repeat split; assumption.
Qed.

Lemma merged_t_samples_row (coarse fine : list (list Q)) (b : nat) (c f : list Q) :
  nth_error coarse b = Some c -> nth_error fine b = Some f ->
  nth_error (merged_t_samples coarse fine) b = Some (QSort.sort (c ++ f)).
Proof.
  intros Hc Hf. unfold merged_t_samples, sort_dim1, Tensor.cat_dim1.
  apply (map_nth_error QSort.sort). apply nth_error_map2; assumption.
Qed.

End SortedRows.

Lemma Forall2_nth_error {A B : Type} (R : A -> B -> Prop) (l : list A) (l' : list B)
    (n : nat) (a : A) (b : B) :
  Forall2 R l l' -> nth_error l n = Some a -> nth_error l' n = Some b -> R a b.
Proof.
  intros H. revert n. induction H as [| x y l l' Hxy H IH]; intros [| n]; simpl;
    try discriminate.
  - intros Ha Hb. congruence.
  - apply IH.
Qed.

Section DistanceSigns.
Import Rays.
Local Open Scope Q_scope.

(** With ascending samples that stay below the far bound every distance of
    the row is non-negative. *)
Lemma distances_row_nonneg (t : list Q) (far : Q) :
  Sorted Qle t -> Forall (fun x => x <= far) t ->
  Forall (Qle 0) (diff (t ++ [1 * far])).
Proof.
  intros Hs Hall. apply diff_ascending_nonneg, ascending_append; [exact Hs |].
  eapply Forall_impl; [| exact Hall]. simpl. intros x Hx. lra.
Qed.

Lemma get_sampling_distances_nonneg (t_samples : list (list Q))
    (ray_bounds : list (Q * Q)) :
  (forall b t bounds,
     nth_error t_samples b = Some t -> nth_error ray_bounds b = Some bounds ->
     Sorted Qle t /\ Forall (fun x => x <= snd bounds) t) ->
  distances_nonneg (get_sampling_distances t_samples (Some ray_bounds)).
Proof.
  intros H. apply Forall_forall. intros d Hd.
  apply In_nth_error in Hd as [b Hb].
  apply get_sampling_distances_row_inv in Hb as (t & bounds & Ht & Hbd & ->).
  destruct (H b t bounds Ht Hbd) as [Hs Hall].
  apply distances_row_nonneg; assumption.
Qed.

End DistanceSigns.

(** C7: a fine strategy that honours its stated contract (one t
    value per ray for [n_samples = 1]) but returns a t value beyond the far
    bound yields a negative last distance: coarse [0.1, 0.5, 0.9] within
    bounds (0, 1) merged with fine [1.5] gives distances
    [0.4, 0.4, 0.6, -0.5]. *)
Lemma fine_pass_negative_distance :
  let strategy := fun (_ : nat) (_ _ : list (list Q)) => [[1.5]%Q] in
  let coarse_ts := [[0.1; 0.5; 0.9]%Q] in
  let ray_bounds := [(0, 1)%Q] in
  let distances :=
    snd (Rays.get_fine_samples strategy [(1, 0, 0)%Q] [(- (1), 0, 0)%Q] ray_bounds
           coarse_ts [[0; 0; 0]%Q] [[0.4; 0.4; 0.1]%Q] 1) in
  ascending_rows coarse_ts /\ within_bounds coarse_ts ray_bounds /\
  Forall2 (Forall2 Qeq) distances [[0.4; 0.4; 0.6; - 0.5]%Q] /\
  ~ distances_nonneg distances.
Proof.
  cbv zeta. split; [| split; [| split]].
  - repeat constructor; vm_compute; discriminate.
  - repeat constructor; vm_compute; discriminate.
  - repeat constructor; vm_compute; reflexivity.
  - intros H. unfold distances_nonneg in H.
    rewrite Forall_forall in H.
    specialize (H _ (or_introl eq_refl)).
    rewrite Forall_forall in H.
    specialize (H _ (or_intror (or_intror (or_intror (or_introl eq_refl))))).
    vm_compute in H. apply H. reflexivity.
Qed.

(** C7, amended: the coarse pass, with a sampling function that returns
    ascending t values within the ray bounds, has only non-negative
    distances.  In the fine pass every distance but the last of each ray is
    non-negative, and so is the last one once no coarse and no fine t value
    exceeds the far bound of its ray. *)
Theorem sampling_distances_nonneg :
  (forall sampling_function start_pos heading_vector n_samples batch_size
          ray_bounds plateau_ratio,
     let t_samples :=
       sampling_function n_samples batch_size plateau_ratio (Some ray_bounds) in
     ascending_rows t_samples -> within_bounds t_samples ray_bounds ->
     distances_nonneg
       (snd (Rays.get_coarse_samples sampling_function start_pos heading_vector
               n_samples batch_size (Some ray_bounds) plateau_ratio))) /\
  (forall strategy start_pos heading_vector ray_bounds coarse_ts values dists n,
     let fine_ts := strategy n values dists in
     let distances :=
       snd (Rays.get_fine_samples strategy start_pos heading_vector ray_bounds
              coarse_ts values dists n) in
     (forall row i, In row distances -> (S i < length row)%nat ->
        (0 <= nth i row 0)%Q) /\
     (below_far_bound coarse_ts ray_bounds -> below_far_bound fine_ts ray_bounds ->
      distances_nonneg distances)).
Proof.
  split.
  - intros sampling_function start_pos heading_vector n_samples batch_size
           ray_bounds plateau_ratio t_samples Hasc Hin.
    unfold Rays.get_coarse_samples. cbn [snd].
    apply get_sampling_distances_nonneg. intros b t bounds Ht Hb. split.
    + unfold ascending_rows in Hasc. rewrite Forall_forall in Hasc.
      apply Hasc. eapply nth_error_In. exact Ht.
    + assert (Hrow := Forall2_nth_error _ _ _ _ _ _ Hin Ht Hb).
      eapply Forall_impl; [| exact Hrow]. simpl. intros x Hx. apply Hx.
  - intros strategy start_pos heading_vector ray_bounds coarse_ts values dists n
           fine_ts distances.
    subst distances. unfold Rays.get_fine_samples. cbn [snd]. fold fine_ts.
    split.
    + intros row i Hrow Hi.
      apply In_nth_error in Hrow as [b Hb].
      apply get_sampling_distances_row_inv in Hb as (m & bounds & Hm & _ & ->).
      apply merged_t_samples_row_inv in Hm as (c & f & _ & _ & ->).
      rewrite diff_append_length in Hi.
      rewrite diff_append_inner by exact Hi.
      assert (Hstep := ascending_step _ i (sort_ascending (c ++ f)) Hi).
      lra.
    + intros Hc Hf. apply get_sampling_distances_nonneg.
      intros b m bounds Hm Hb.
      apply merged_t_samples_row_inv in Hm as (c & f & Hcb & Hfb & ->).
      split; [apply sort_ascending |].
      apply sort_upper_bound, Forall_app. split.
      * exact (Forall2_nth_error _ _ _ _ _ _ Hc Hcb Hb).
      * exact (Forall2_nth_error _ _ _ _ _ _ Hf Hfb Hb).
Qed.

Lemma sampling_distances_nonneg_witness :
  let sampling_function :=
    fun (_ _ : nat) (_ : option Q) (_ : option (list (Q * Q))) =>
      [[0.1; 0.5; 0.9]%Q] in
  let strategy := fun (_ : nat) (_ _ : list (list Q)) => [[0.3; 0.7]%Q] in
  let ray_bounds := [(0, 1)%Q] in
  let fine_distances :=
    snd (Rays.get_fine_samples strategy [(1, 0, 0)%Q] [(- (1), 0, 0)%Q] ray_bounds
           [[0.1; 0.5; 0.9]%Q] [[0; 0; 0]%Q] [[0.4; 0.4; 0.1]%Q] 2) in
  distances_nonneg
    (snd (Rays.get_coarse_samples sampling_function [(1, 0, 0)%Q] [(- (1), 0, 0)%Q]
            3 1 (Some ray_bounds) None)) /\
  (0 <= nth 3 (nth 0 fine_distances []) 0)%Q /\
  distances_nonneg fine_distances.
Proof.
  cbv zeta. split; [| split].
  - apply (proj1 sampling_distances_nonneg
             (fun _ _ _ _ => [[0.1; 0.5; 0.9]%Q]) [(1, 0, 0)%Q] [(- (1), 0, 0)%Q]
             3%nat 1%nat [(0, 1)%Q] None).
    + repeat constructor; vm_compute; discriminate.
    + repeat constructor; vm_compute; discriminate.
  - apply (proj1 (proj2 sampling_distances_nonneg
                    (fun _ _ _ => [[0.3; 0.7]%Q]) [(1, 0, 0)%Q] [(- (1), 0, 0)%Q]
                    [(0, 1)%Q] [[0.1; 0.5; 0.9]%Q] [[0; 0; 0]%Q] [[0.4; 0.4; 0.1]%Q]
                    2%nat)).
    + left. reflexivity.
    + vm_compute. lia.
  - apply (proj2 (proj2 sampling_distances_nonneg
                    (fun _ _ _ => [[0.3; 0.7]%Q]) [(1, 0, 0)%Q] [(- (1), 0, 0)%Q]
                    [(0, 1)%Q] [[0.1; 0.5; 0.9]%Q] [[0; 0; 0]%Q] [[0.4; 0.4; 0.1]%Q]
                    2%nat)).
    + repeat constructor; vm_compute; discriminate.
    + repeat constructor; vm_compute; discriminate.
Defined.

(** ** Hounsfield calibration *)

Section HounsfieldFacts.
Import CtCreation.
Local Open Scope Q_scope.

Lemma clamp_min_floor (x m : Q) : m <= clamp_min x m.
Proof.
  unfold clamp_min. destruct (Qle_bool m x) eqn:E.
  - apply Qle_bool_iff. exact E.
  - apply Qle_refl.
Qed.

Lemma clamp_min_above (x m : Q) : m <= x -> clamp_min x m = x.
Proof.
  intros H. unfold clamp_min. apply Qle_bool_iff in H. rewrite H. reflexivity.
Qed.

Lemma clamp_min_below (x m : Q) : x <= m -> clamp_min x m == m.
Proof.
  intros H. unfold clamp_min. destruct (Qle_bool m x) eqn:E.
  - apply Qle_bool_iff in E. apply Qle_antisym; assumption.
  - reflexivity.
Qed.

(** The three tensor passes of the calibration act element by element. *)
Lemma to_hounsfield_nth (MU_AIR MU_WATER : Q) (factor : option Q)
    (output : list Q) (i : nat) :
  (i < length output)%nat ->
  nth i (to_hounsfield MU_AIR MU_WATER factor output) 0
  = clamp_min (1000 * (nth i (scale_output factor output) 0 - MU_WATER)
               / (MU_WATER - MU_AIR)) (-1024).
Proof.
  intros Hi. unfold to_hounsfield.
  assert (Hlen : length (scale_output factor output) = length output)
    by (destruct factor; simpl; [apply length_map | reflexivity]).
  set (scaled := scale_output factor output) in *.
  set (hu := fun x : Q => 1000 * (x - MU_WATER) / (MU_WATER - MU_AIR)).
  set (cl := fun x : Q => clamp_min x (-1024)).
  rewrite (nth_indep (map cl (map hu scaled)) 0 (cl (hu 0)))
    by (rewrite !length_map; lia).
  rewrite (map_nth cl), (map_nth hu). reflexivity.
Qed.

Lemma hounsfield_air_or_below (MU_AIR MU_WATER mu : Q) :
  MU_AIR < MU_WATER -> mu <= MU_AIR ->
  1000 * (mu - MU_WATER) / (MU_WATER - MU_AIR) <= -1000.
Proof.
  intros Hlt Hmu. apply Qle_shift_div_r; lra.
Qed.

Lemma hounsfield_water (MU_AIR MU_WATER mu : Q) :
  MU_AIR < MU_WATER -> mu == MU_WATER ->
  1000 * (mu - MU_WATER) / (MU_WATER - MU_AIR) == 0.
Proof.
  intros Hlt Hmu. rewrite Hmu. field. lra.
Qed.

End HounsfieldFacts.

(** C2: with [MU_AIR < MU_WATER], every calibrated output is at least -1024;
    a (scaled) model output equal to [MU_WATER] maps to 0; a (scaled) model
    output at or below [MU_AIR] maps into [-1024, -1000], the value being
    -1024 itself whenever the unclamped Hounsfield value is at or below it. *)
Theorem hounsfield_calibration
    (MU_AIR MU_WATER : Q) (factor : option Q) (output : list Q) (i : nat) :
  (MU_AIR < MU_WATER)%Q -> (i < length output)%nat ->
  let mu := nth i (CtCreation.scale_output factor output) 0%Q in
  let unclamped := (1000 * (mu - MU_WATER) / (MU_WATER - MU_AIR))%Q in
  let hu := nth i (CtCreation.to_hounsfield MU_AIR MU_WATER factor output) 0%Q in
  (- (1024) <= hu)%Q /\
  (mu == MU_WATER -> hu == 0)%Q /\
  (mu <= MU_AIR -> - (1024) <= hu <= - (1000))%Q /\
  (unclamped <= - (1024) -> hu == - (1024))%Q.
Proof.
  intros Hlt Hi mu unclamped hu.
  assert (Hhu : hu = CtCreation.clamp_min unclamped (- (1024))%Q)
    by (apply to_hounsfield_nth; exact Hi).
  rewrite Hhu. split; [| split; [| split]].
  - apply clamp_min_floor.
  - intros Hmu.
    assert (H0 : (unclamped == 0)%Q) by (apply hounsfield_water; assumption).
    rewrite clamp_min_above by (rewrite H0; discriminate).
    exact H0.
  - intros Hmu. split; [apply clamp_min_floor |].
    assert (Hle : (unclamped <= - (1000))%Q)
      by (apply hounsfield_air_or_below; assumption).
    unfold CtCreation.clamp_min.
    destruct (Qle_bool (- (1024)) unclamped); [exact Hle | discriminate].
  - intros Hle. apply clamp_min_below. exact Hle.
Qed.

Lemma hounsfield_calibration_witness :
  let MU_AIR := 0.0002%Q in
  let MU_WATER := 0.2%Q in
  let output := [0.2; 0.0001; - (1)]%Q in
  (- (1024) <= nth 0 (CtCreation.to_hounsfield MU_AIR MU_WATER None output) 0)%Q /\
  (nth 0 (CtCreation.to_hounsfield MU_AIR MU_WATER None output) 0 == 0)%Q /\
  (nth 1 (CtCreation.to_hounsfield MU_AIR MU_WATER None output) 0 <= - (1000))%Q /\
  (nth 2 (CtCreation.to_hounsfield MU_AIR MU_WATER None output) 0 == - (1024))%Q.
Proof.
  cbv zeta.
  assert (Hlt : (0.0002 < 0.2)%Q) by reflexivity.
  assert (H0 : (0 < length [0.2; 0.0001; - (1)]%Q)%nat) by (simpl; lia).
  assert (H1 : (1 < length [0.2; 0.0001; - (1)]%Q)%nat) by (simpl; lia).
  assert (H2 : (2 < length [0.2; 0.0001; - (1)]%Q)%nat) by (simpl; lia).
  destruct (hounsfield_calibration 0.0002 0.2 None [0.2; 0.0001; - (1)]%Q 0 Hlt H0)
    as (Hfloor & Hwater & _ & _).
  destruct (hounsfield_calibration 0.0002 0.2 None [0.2; 0.0001; - (1)]%Q 1 Hlt H1)
    as (_ & _ & Hair & _).
  destruct (hounsfield_calibration 0.0002 0.2 None [0.2; 0.0001; - (1)]%Q 2 Hlt H2)
    as (_ & _ & _ & Hbelow).
  split; [exact Hfloor |]. split; [| split].
  - apply Hwater. reflexivity.
  - apply Hair. vm_compute. discriminate.
  - apply Hbelow. vm_compute. discriminate.
Defined.

(** ** Volume sizing *)

(** C3: on a 256-pixel detector at 1.0 mm with a requested voxel spacing of
    2.0 mm the code computes a lattice of 512 voxels per axis, not 128, and
    the extent of that lattice is 1024 mm, not the 256 mm of the detector. *)
Theorem generate_ct_voxel_spacing_size :
  CtCreation.determine_size sizing_example_conf
  = (Some (512, 512, 512)%Z, Some (2.0, 2.0, 2.0)%Q) /\
  triple_eq (extent (512, 512, 512)%Z (2.0, 2.0, 2.0)%Q)
            (1024, 1024, 1024)%Q /\
  triple_eq (CtCreation.zip3 Qmult (CtCreation.original_size sizing_example_conf)
                             (CtCreation.original_spacing sizing_example_conf))
            (256, 256, 256)%Q.
Proof.
  split; [reflexivity |]. split; vm_compute; repeat split.
Qed.

(** The sibling branch, taken when a voxel count is requested, does preserve
    the physical extent. *)
Lemma generate_ct_image_size_extent (conf : CtCreation.InferenceConfig)
    (n0 n1 n2 : Z) :
  CtCreation.voxel_spacing conf = None ->
  CtCreation.image_size conf = Some (n0, n1, n2) ->
  (0 < n0)%Z -> (0 < n1)%Z -> (0 < n2)%Z ->
  exists new_spacing,
    CtCreation.determine_size conf = (Some (n0, n1, n2), Some new_spacing) /\
    triple_eq (extent (n0, n1, n2) new_spacing)
              (CtCreation.zip3 Qmult (CtCreation.original_size conf)
                               (CtCreation.original_spacing conf)).
Proof.
  intros Hvs His H0 H1 H2. unfold CtCreation.determine_size.
  rewrite Hvs, His. eexists. split; [reflexivity |].
  unfold CtCreation.original_size, CtCreation.original_spacing.
  destruct (CtCreation.size (CtCreation.xray_metadata conf)) as [s0 s1].
  destruct (CtCreation.spacing (CtCreation.xray_metadata conf)) as [p0 p1].
  assert (Hn0 : ~ (inject_Z n0 == 0)%Q)
    by (unfold Qeq; simpl; lia).
  assert (Hn1 : ~ (inject_Z n1 == 0)%Q)
    by (unfold Qeq; simpl; lia).
  assert (Hn2 : ~ (inject_Z n2 == 0)%Q)
    by (unfold Qeq; simpl; lia).
  simpl. repeat split; field; assumption.
Qed.

(** ** Configuration of the target lattice *)

(** C8: a configuration that supplies both a voxel spacing and a voxel
    count is not rejected: the reconstruction runs on the lattice derived
    from the spacing and hands a volume of 2 * 2 * 2 voxels, all calibrated to
    0, to the writer. *)
Lemma generate_ct_accepts_both :
  CtCreation.voxel_spacing both_supplied_conf <> None /\
  CtCreation.image_size both_supplied_conf <> None /\
  exists volume,
    CtCreation.generate_ct 0.0002 0.2 both_supplied_conf (fun _ => 0%Q)
    = CtCreation.Ok (volume, (1, 1, 1)%Q) /\
    length volume = 8%nat /\ Forall (fun v => v == 0)%Q volume.
Proof.
  split; [discriminate |]. split; [discriminate |].
  eexists. split; [vm_compute; reflexivity |].
  split; [reflexivity |]. repeat constructor.
Qed.

(** C8, amended: with neither a voxel spacing nor a voxel count the
    reconstruction stops on the unbound lattice size before the inference is
    called, whatever the models are; with both, the voxel count is ignored
    and the reconstruction proceeds as if only the spacing had been given. *)
Theorem generate_ct_size_selection
    (MU_AIR MU_WATER : Q) (conf : CtCreation.InferenceConfig) (uninit : nat -> Q) :
  (CtCreation.voxel_spacing conf = None -> CtCreation.image_size conf = None ->
   CtCreation.generate_ct MU_AIR MU_WATER conf uninit
   = CtCreation.Err CtCreation.UnboundLocalError) /\
  (CtCreation.voxel_spacing conf <> None -> CtCreation.image_size conf <> None ->
   CtCreation.generate_ct MU_AIR MU_WATER conf uninit
   = CtCreation.generate_ct MU_AIR MU_WATER (without_image_size conf) uninit).
Proof.
  split.
  - intros Hvs His. unfold CtCreation.generate_ct, CtCreation.determine_size.
    rewrite Hvs, His. reflexivity.
  - intros Hvs _. unfold CtCreation.generate_ct, CtCreation.determine_size.
    destruct conf as [meta vs sz fm cm cs factor]. simpl in *.
    destruct vs as [vs |]; [reflexivity | congruence].
Qed.

Lemma generate_ct_size_selection_witness :
  CtCreation.generate_ct 0.0002 0.2 (without_image_size
     {| CtCreation.xray_metadata := CtCreation.xray_metadata both_supplied_conf;
        CtCreation.voxel_spacing := None;
        CtCreation.image_size := None;
        CtCreation.fine_model := CtCreation.fine_model both_supplied_conf;
        CtCreation.coarse_model := None;
        CtCreation.chunk_size := 3;
        CtCreation.attenuation_scaling_factor := None |}) (fun _ => 0%Q)
  = CtCreation.Err CtCreation.UnboundLocalError /\
  CtCreation.generate_ct 0.0002 0.2 both_supplied_conf (fun _ => 0%Q)
  = CtCreation.generate_ct 0.0002 0.2 (without_image_size both_supplied_conf)
      (fun _ => 0%Q).
Proof.
  split.
  - apply (proj1 (generate_ct_size_selection 0.0002 0.2 _ (fun _ => 0%Q)));
      reflexivity.
  - apply (proj2 (generate_ct_size_selection 0.0002 0.2 both_supplied_conf
                    (fun _ => 0%Q)));
      discriminate.
Defined.

(** ** Ray geometry *)

Section RayGeometry.
Import Rays.
Local Open Scope R_scope.

Lemma ray_bounds_row (start_pos heading_vector : list rvec3) (b : nat)
    (start heading : rvec3) :
  nth_error start_pos b = Some start ->
  nth_error heading_vector b = Some heading ->
  nth_error (_get_ray_bounds start_pos heading_vector) b
  = Some (- p_half_of start heading
          - nan_to_num (torch_sqrt (discriminant start heading)) 0,
          - p_half_of start heading
          + nan_to_num (torch_sqrt (discriminant start heading)) 0).
Proof.
  intros Hs Hh. unfold _get_ray_bounds.
  rewrite (nth_error_map2 _ _ _ _ _ _ Hs Hh). reflexivity.
Qed.

Lemma saturating_sqrt_nonneg (x : R) : 0 <= nan_to_num (torch_sqrt x) 0.
Proof.
  unfold torch_sqrt. destruct (Rlt_dec x 0); simpl.
  - apply Rle_refl.
  - apply sqrt_pos.
Qed.

Lemma saturating_sqrt_negative (x : R) : x < 0 -> nan_to_num (torch_sqrt x) 0 = 0.
Proof.
  intros Hx. unfold torch_sqrt. destruct (Rlt_dec x 0); [reflexivity | contradiction].
Qed.

(** The start position of one ray, before and after the rotation. *)
Lemma get_rays_start_row (pixel_pos : list (R * R)) (angles : list R)
    (img_shape : R * R) (b : nat) (pixel : R * R) (theta : R) :
  nth_error pixel_pos b = Some pixel ->
  nth_error angles b = Some theta ->
  let n := normalize_pixel pixel img_shape in
  nth_error (fst (fst (get_rays pixel_pos angles img_shape))) b
  = Some (cos theta * 1 + - sin theta * fst n + 0 * snd n,
          sin theta * 1 + cos theta * fst n + 0 * snd n,
          0 * 1 + 0 * fst n + 1 * snd n).
Proof.
  intros Hp Ha n. unfold get_rays, _create_z_rotation_matrix. cbn [fst snd].
  rewrite (nth_error_map2 mat_vec _ _ b
             ((cos theta, - sin theta, 0), (sin theta, cos theta, 0), (0, 0, 1))
             (1, fst n, snd n)); [reflexivity | |].
  - apply (nth_error_map2
             (fun c s : R => ((c, - s, 0), (s, c, 0), (0, 0, 1)))).
    + apply map_nth_error. exact Ha.
    + apply map_nth_error. exact Ha.
  - rewrite nth_error_map, nth_error_map, Hp. reflexivity.
Qed.

End RayGeometry.

(** C5: [_get_ray_bounds] returns a pair (t1, t2) for every ray it is given,
    always with t1 <= t2; when the discriminant [p_half^2 - q] is negative
    the square root counts as 0 and t1 = t2 = -p_half. *)
Theorem get_ray_bounds_ordered
    (start_pos heading_vector : list Rays.rvec3) :
  length (Rays._get_ray_bounds start_pos heading_vector)
  = Nat.min (length start_pos) (length heading_vector) /\
  forall b start heading,
    nth_error start_pos b = Some start ->
    nth_error heading_vector b = Some heading ->
    exists t1 t2,
      nth_error (Rays._get_ray_bounds start_pos heading_vector) b = Some (t1, t2) /\
      (t1 <= t2)%R /\
      ((discriminant start heading < 0)%R ->
       t1 = (- Rays.p_half_of start heading)%R /\
       t2 = (- Rays.p_half_of start heading)%R).
Proof.
  split; [apply map2_length |].
  intros b start heading Hs Hh.
  eexists. eexists. split; [apply ray_bounds_row; eassumption |]. split.
  - assert (H := saturating_sqrt_nonneg (discriminant start heading)). lra.
  - intros Hneg. rewrite (saturating_sqrt_negative _ Hneg). split; ring.
Qed.

Lemma get_ray_bounds_ordered_witness :
  exists t1 t2,
    nth_error (Rays._get_ray_bounds [(1, 2, 0)%R] [(- (1), 0, 0)%R]) 0 = Some (t1, t2) /\
    (t1 <= t2)%R /\ t1 = 1%R /\ t2 = 1%R.
Proof.
  destruct (proj2 (get_ray_bounds_ordered [(1, 2, 0)%R] [(- (1), 0, 0)%R])
              0%nat (1, 2, 0)%R (- (1), 0, 0)%R eq_refl eq_refl)
    as (t1 & t2 & Hrow & Hle & Hneg).
  exists t1, t2. split; [exact Hrow |]. split; [exact Hle |].
  assert (Hd : (discriminant (1, 2, 0) (- (1), 0, 0) < 0)%R)
    by (unfold discriminant; simpl; lra).
  destruct (Hneg Hd) as [H1 H2]. simpl in H1, H2. split; lra.
Defined.

(** C6: the ray through pixel (0, 0) of a 3 x 3 image at gantry
    angle 0 starts at (1, -1, -1), where x^2 + y^2 = 2: off the cylinder. *)
Lemma get_rays_start_off_cylinder :
  fst (fst (Rays.get_rays [(0, 0)%R] [0%R] (3, 3)%R)) = [(1, - (1), - (1))%R] /\
  ~ Forall on_unit_cylinder (fst (fst (Rays.get_rays [(0, 0)%R] [0%R] (3, 3)%R))).
Proof.
  assert (Hstart :
    fst (fst (Rays.get_rays [(0, 0)%R] [0%R] (3, 3)%R)) = [(1, - (1), - (1))%R]).
  { cbv [Rays.get_rays Rays._create_z_rotation_matrix Rays._get_ray_bounds
         Rays.normalize_pixel Rays.mat_vec Tensor.map2 map combine fst snd].
    rewrite cos_0, sin_0. repeat f_equal; lra. }
  split; [exact Hstart |].
  rewrite Hstart. intros H. inversion H as [| p l Hp _]; subst.
  unfold on_unit_cylinder in Hp. lra.
Qed.

(** C6, amended: the start position of the ray through a pixel with
    normalized first coordinate [n] at gantry angle [theta] lies on the plane
    tangent to the unit cylinder at angle [theta]; there x^2 + y^2 = 1 + n^2,
    so it is on or outside the cylinder, and on it exactly when n = 0. *)
Theorem get_rays_start_on_tangent_plane
    (pixel_pos : list (R * R)) (angles : list R) (img_shape : R * R)
    (b : nat) (pixel : R * R) (theta : R) :
  nth_error pixel_pos b = Some pixel ->
  nth_error angles b = Some theta ->
  let n := fst (Rays.normalize_pixel pixel img_shape) in
  exists x y z,
    nth_error (fst (fst (Rays.get_rays pixel_pos angles img_shape))) b
    = Some (x, y, z) /\
    (x * cos theta + y * sin theta = 1)%R /\
    (x ^ 2 + y ^ 2 = 1 + n ^ 2)%R /\
    (1 <= x ^ 2 + y ^ 2)%R /\
    (on_unit_cylinder (x, y, z) <-> n = 0%R).
Proof.
  intros Hp Ha n.
  assert (Hcs := sin2_cos2 theta). unfold Rsqr in Hcs.
  eexists. eexists. eexists.
  split; [apply (get_rays_start_row _ _ img_shape _ _ _ Hp Ha) |].
  fold n. set (c := cos theta) in *. set (s := sin theta) in *.
  assert (Hplane : ((c * 1 + - s * n + 0 * snd (Rays.normalize_pixel pixel img_shape)) * c
                    + (s * 1 + c * n + 0 * snd (Rays.normalize_pixel pixel img_shape)) * s
                    = 1)%R) by nra.
  assert (Hnorm : ((c * 1 + - s * n + 0 * snd (Rays.normalize_pixel pixel img_shape)) ^ 2
                   + (s * 1 + c * n + 0 * snd (Rays.normalize_pixel pixel img_shape)) ^ 2
                   = 1 + n ^ 2)%R).
  { replace ((c * 1 + - s * n + 0 * snd (Rays.normalize_pixel pixel img_shape)) ^ 2
             + (s * 1 + c * n + 0 * snd (Rays.normalize_pixel pixel img_shape)) ^ 2)%R
      with ((s * s + c * c) * (1 + n ^ 2))%R by ring.
    rewrite Hcs. ring. }
  split; [exact Hplane |]. split; [exact Hnorm |]. split.
  - rewrite Hnorm. nra.
  - unfold on_unit_cylinder. rewrite Hnorm. split; intros H; nra.
Qed.

Lemma get_rays_start_on_tangent_plane_witness :
  exists x y z,
    nth_error (fst (fst (Rays.get_rays [(0, 0)%R] [0%R] (3, 3)%R))) 0
    = Some (x, y, z) /\
    (x ^ 2 + y ^ 2 = 2)%R.
Proof.
  destruct (get_rays_start_on_tangent_plane [(0, 0)%R] [0%R] (3, 3)%R 0%nat
              (0, 0)%R 0%R eq_refl eq_refl)
    as (x & y & z & Hrow & _ & Hnorm & _).
  exists x, y, z. split; [exact Hrow |].
  rewrite Hnorm. simpl. lra.
Defined.

(** ** Beer-Lambert transmittance *)

Section Transmittance.
Import Rays.
Local Open Scope R_scope.

Lemma exp_monotone (x y : R) : x <= y -> exp x <= exp y.
Proof.
  intros [Hlt | Heq].
  - apply Rlt_le, exp_increasing. exact Hlt.
  - subst. apply Rle_refl.
Qed.

Lemma row_sum_zero_coeffs (c d : list R) :
  Forall (fun x => x = 0) c -> row_sum (Tensor.map2 Rmult c d) = 0.
Proof.
  intros Hc. revert d. induction Hc as [| x c Hx Hc IH]; intros [| y d];
    try reflexivity.
  change (x * y + row_sum (Tensor.map2 Rmult c d) = 0).
  rewrite IH, Hx. ring.
Qed.

Lemma row_sum_monotone (c c' d : list R) :
  Forall2 Rle c c' -> Forall (fun x => 0 <= x) d ->
  row_sum (Tensor.map2 Rmult c d) <= row_sum (Tensor.map2 Rmult c' d).
Proof.
  intros Hc. revert d. induction Hc as [| x x' c c' Hx Hc IH]; intros d Hd.
  - apply Rle_refl.
  - destruct Hd as [| y d Hy Hd]; [apply Rle_refl |].
    change (x * y + row_sum (Tensor.map2 Rmult c d)
            <= x' * y + row_sum (Tensor.map2 Rmult c' d)).
    specialize (IH d Hd). nra.
Qed.

(** Without scaling parameters the result is the plain exponential, row by
    row. *)
Lemma beer_lambert_law_unscaled (coeffs distances : list (list R))
    (s k : option R) (slice_size_cm : R) :
  no_scaling s k ->
  beer_lambert_law coeffs distances s k slice_size_cm
  = Tensor.map2
      (fun c d => exp (- row_sum (Tensor.map2 Rmult c
                                    (map (fun x => x * slice_size_cm / 2) d))))
      coeffs distances.
Proof.
  intros Hsk.
  assert (Hraw : beer_lambert_law coeffs distances s k slice_size_cm
                 = beer_lambert_law coeffs distances None None slice_size_cm).
  { destruct Hsk as [-> | ->]; [reflexivity | destruct s; reflexivity]. }
  rewrite Hraw. clear Hraw. unfold beer_lambert_law, Tensor.map2.
  rewrite map_map. revert distances.
  induction coeffs as [| c coeffs IH]; intros [| d distances]; try reflexivity.
  simpl. f_equal. apply IH.
Qed.

Lemma scaled_distances_nonneg (slice_size_cm : R) (d : list R) :
  0 <= slice_size_cm -> Forall (fun x => 0 < x) d ->
  Forall (fun x => 0 <= x) (map (fun x => x * slice_size_cm / 2) d).
Proof.
  intros Hs Hd. apply Forall_map. eapply Forall_impl; [| exact Hd].
  simpl. intros x Hx. nra.
Qed.

Lemma beer_lambert_law_antitone (coeffs coeffs' distances : list (list R))
    (s k : option R) (slice_size_cm : R) :
  no_scaling s k -> 0 <= slice_size_cm ->
  Forall (Forall (fun d => 0 < d)) distances ->
  Forall2 (Forall2 Rle) coeffs coeffs' ->
  Forall2 (fun T T' => T' <= T)
          (beer_lambert_law coeffs distances s k slice_size_cm)
          (beer_lambert_law coeffs' distances s k slice_size_cm).
Proof.
  intros Hsk Hs Hd Hc. rewrite !beer_lambert_law_unscaled by exact Hsk.
  revert distances Hd.
  induction Hc as [| c c' coeffs coeffs' Hrow Hc IH]; intros distances Hd.
  - constructor.
  - destruct Hd as [| d distances Hdrow Hd]; [constructor |].
    unfold Tensor.map2. simpl. constructor.
    + apply exp_monotone, Ropp_le_contravar, row_sum_monotone; [exact Hrow |].
      apply scaled_distances_nonneg; assumption.
    + apply IH. exact Hd.
Qed.

End Transmittance.

(** C9: without (s, k) scaling, all-zero attenuation coefficients give
    transmittance exactly 1 on every ray, whatever the distances; and for
    positive distances (and a non-negative slice size) raising the
    coefficients, in particular raising the magnitude of non-negative
    coefficients, never raises the transmittance of any ray. *)
Theorem beer_lambert_law_zero_and_monotone
    (s k : option R) (slice_size_cm : R) :
  no_scaling s k ->
  (forall coeffs distances,
     Forall (Forall (fun c => c = 0%R)) coeffs ->
     length (Rays.beer_lambert_law coeffs distances s k slice_size_cm)
     = Nat.min (length coeffs) (length distances) /\
     Forall (fun T => T = 1%R)
            (Rays.beer_lambert_law coeffs distances s k slice_size_cm)) /\
  ((0 <= slice_size_cm)%R ->
   forall coeffs coeffs' distances,
     Forall (Forall (fun d => (0 < d)%R)) distances ->
     (Forall2 (Forall2 Rle) coeffs coeffs' \/
      Forall2 (Forall2 (fun c c' => (0 <= c)%R /\ (0 <= c')%R /\
                                    (Rabs c <= Rabs c')%R)) coeffs coeffs') ->
     Forall2 (fun T T' => (T' <= T)%R)
             (Rays.beer_lambert_law coeffs distances s k slice_size_cm)
             (Rays.beer_lambert_law coeffs' distances s k slice_size_cm)).
Proof.
  intros Hsk. split.
  - intros coeffs distances Hzero.
    rewrite beer_lambert_law_unscaled by exact Hsk.
    split; [apply map2_length |].
    apply Forall_forall. intros T HT.
    apply In_nth_error in HT as [b Hb].
    apply nth_error_map2_inv in Hb as (c & d & Hc & _ & ->).
    rewrite row_sum_zero_coeffs.
    + rewrite Ropp_0. apply exp_0.
    + rewrite Forall_forall in Hzero. apply Hzero.
      eapply nth_error_In. exact Hc.
  - intros Hs coeffs coeffs' distances Hd Hc.
    apply beer_lambert_law_antitone; try assumption.
    destruct Hc as [Hc | Hc]; [exact Hc |].
    eapply Forall2_impl; [| exact Hc].
    intros c c' Hrow. eapply Forall2_impl; [| exact Hrow].
    simpl. intros x x' (Hx & Hx' & Habs).
    rewrite !Rabs_pos_eq in Habs by assumption. exact Habs.
Qed.

Lemma beer_lambert_law_zero_and_monotone_witness :
  Forall (fun T => T = 1%R)
         (Rays.beer_lambert_law [[0; 0]%R] [[0.5; 0.25]%R] None None 30) /\
  Forall2 (fun T T' => (T' <= T)%R)
          (Rays.beer_lambert_law [[0.1; 0.2]%R] [[0.5; 0.25]%R] None None 30)
          (Rays.beer_lambert_law [[0.3; 0.2]%R] [[0.5; 0.25]%R] None None 30).
Proof.
  assert (Hsk : no_scaling None None) by (left; reflexivity).
  destruct (beer_lambert_law_zero_and_monotone None None 30 Hsk) as [Hzero Hmono].
  split.
  - apply (Hzero [[0; 0]%R] [[0.5; 0.25]%R]). repeat constructor.
  - apply Hmono.
    + lra.
    + repeat constructor; lra.
    + left. repeat constructor; lra.
Defined.

(** ** The chunked query loop *)

Section ChunkedQuery.
Import CtCreation.

Variable model : XRayModel.
Variable field : vec3 -> Q.
Hypothesis model_pointwise : forall points, model points = map field points.

Variable coords : list vec3.
Variable chunk_size : nat.
Variable uninit : nat -> Q.

Lemma torch_empty_length (n : nat) : length (torch_empty uninit n) = n.
Proof. unfold torch_empty. rewrite length_map, length_seq. reflexivity. Qed.

Lemma torch_empty_fresh (n : nat) :
  Forall (fun c => writes c = 0%nat) (torch_empty uninit n).
Proof. unfold torch_empty. apply Forall_map, Forall_forall. reflexivity. Qed.

Lemma Forall_firstn {A : Type} (P : A -> Prop) (n : nat) (l : list A) :
  Forall P l -> Forall P (firstn n l).
Proof.
  intros H. rewrite <- (firstn_skipn n l) in H. apply Forall_app in H. apply H.
Qed.

Lemma Forall_skipn {A : Type} (P : A -> Prop) (n : nat) (l : list A) :
  Forall P l -> Forall P (skipn n l).
Proof.
  intros H. rewrite <- (firstn_skipn n l) in H. apply Forall_app in H. apply H.
Qed.

Lemma map2_store_fresh (cells : list cell) (points : list vec3) :
  Forall (fun c => writes c = 0%nat) cells ->
  length cells = length points ->
  Tensor.map2 store cells (map field points) = written field points.
Proof.
  intros Hfresh. revert points.
  induction Hfresh as [| c cells Hc Hfresh IH]; intros [| p points] Hlen;
    try discriminate; [reflexivity |].
  unfold Tensor.map2 in *. simpl. f_equal.
  - unfold store. rewrite Hc. reflexivity.
  - apply IH. simpl in Hlen. lia.
Qed.

Lemma slice_assign_parts (pre mid post : list cell) (start stop : nat) (src : list Q) :
  Nat.min start (length (pre ++ mid ++ post)) = length pre ->
  Nat.max (length pre) (Nat.min stop (length (pre ++ mid ++ post)))
  = (length pre + length mid)%nat ->
  length src = length mid ->
  slice_assign (pre ++ mid ++ post) start stop src
  = Ok (pre ++ Tensor.map2 store mid src ++ post).
Proof.
  intros Hlo Hhi Hsrc. unfold slice_assign. rewrite Hlo, Hhi.
  replace (length pre + length mid - length pre)%nat with (length mid) by lia.
  rewrite Hsrc, Nat.eqb_refl.
  assert (Hpre : firstn (length pre) (pre ++ mid ++ post) = pre).
  { rewrite firstn_app, Nat.sub_diag, firstn_all. simpl. apply app_nil_r. }
  assert (Hrest : skipn (length pre) (pre ++ mid ++ post) = mid ++ post).
  { rewrite skipn_app, Nat.sub_diag, skipn_all. reflexivity. }
  assert (Hmid : firstn (length mid) (mid ++ post) = mid).
  { rewrite firstn_app, Nat.sub_diag, firstn_all. simpl. apply app_nil_r. }
  assert (Hpost : skipn (length pre + length mid) (pre ++ mid ++ post) = post).
  { rewrite Nat.add_comm, <- skipn_skipn, Hrest.
    rewrite skipn_app, Nat.sub_diag, skipn_all. reflexivity. }
  rewrite Hpre, Hrest, Hmid, Hpost. reflexivity.
Qed.

Lemma firstn_chunk (a b : nat) :
  (a <= b)%nat ->
  firstn b coords = firstn a coords ++ firstn (b - a) (skipn a coords).
Proof.
  intros Hab. rewrite <- (firstn_skipn a coords) at 1.
  rewrite firstn_app, length_firstn.
  destruct (Nat.le_gt_cases a (length coords)) as [Hle | Hgt].
  - rewrite Nat.min_l by exact Hle.
    rewrite firstn_firstn, Nat.min_r by exact Hab. reflexivity.
  - rewrite (skipn_all2 coords) by lia.
    rewrite !firstn_nil, !app_nil_r, firstn_firstn.
    rewrite !firstn_all2 by (try rewrite length_firstn; lia). reflexivity.
Qed.

(** One iteration of the loop stores exactly the next chunk. *)
Lemma inference_step (i : nat) :
  let n := length coords in
  slice_assign (progress field coords uninit (Nat.min (i * chunk_size) n))
               (i * chunk_size) ((i + 1) * chunk_size)
               (model (firstn chunk_size (skipn (i * chunk_size) coords)))
  = Ok (progress field coords uninit (Nat.min ((i + 1) * chunk_size) n)).
Proof.
  intros n. rewrite model_pointwise.
  set (a := Nat.min (i * chunk_size) n).
  set (b := Nat.min ((i + 1) * chunk_size) n).
  assert (Hab : (a <= b)%nat) by (subst a b; nia).
  assert (Hbn : (b <= n)%nat) by (subst b; lia).
  set (init := torch_empty uninit n).
  assert (Hinit : length init = n) by apply torch_empty_length.
  assert (Hchunk : firstn chunk_size (skipn (i * chunk_size) coords)
                   = firstn (b - a) (skipn a coords)).
  { destruct (Nat.le_gt_cases (i * chunk_size) n) as [Hle | Hgt].
    - replace a with (i * chunk_size)%nat by (subst a; lia).
      destruct (Nat.le_gt_cases ((i + 1) * chunk_size) n) as [Hle' | Hgt'].
      + f_equal. subst b. lia.
      + rewrite !firstn_all2; [reflexivity | |]; rewrite length_skipn;
          fold n; subst b; lia.
    - rewrite (skipn_all2 coords) by (fold n; lia).
      replace (b - a)%nat with 0%nat by (subst a b; lia).
      rewrite firstn_nil. reflexivity. }
  rewrite Hchunk.
  unfold progress. fold n. fold init.
  rewrite <- (firstn_skipn (b - a) (skipn a init)).
  rewrite skipn_skipn. replace (b - a + a)%nat with b by lia.
  assert (Hpre : length (written field (firstn a coords)) = a)
    by (unfold written; rewrite length_map, length_firstn; fold n; lia).
  assert (Hmid : length (firstn (b - a) (skipn a init)) = (b - a)%nat)
    by (rewrite length_firstn, length_skipn; lia).
  assert (Hpost : length (skipn b init) = (n - b)%nat)
    by (rewrite length_skipn; lia).
  assert (Hpts : length (firstn (b - a) (skipn a coords)) = (b - a)%nat)
    by (rewrite length_firstn, length_skipn; fold n; lia).
  rewrite slice_assign_parts.
  - rewrite map2_store_fresh.
    + rewrite (firstn_chunk a b Hab). unfold written.
      rewrite map_app, <- app_assoc. reflexivity.
    + apply Forall_firstn, Forall_skipn, torch_empty_fresh.
    + rewrite Hmid, Hpts. reflexivity.
  - rewrite !length_app, Hpre, Hmid, Hpost. subst a. lia.
  - rewrite !length_app, Hpre, Hmid, Hpost. subst a b. lia.
  - rewrite length_map, Hmid, Hpts. reflexivity.
Qed.

Lemma inference_loop_progress (m i : nat) :
  let n := length coords in
  inference_loop model
    (map (fun j => (j, firstn chunk_size (skipn (j * chunk_size) coords))) (seq i m))
    chunk_size (progress field coords uninit (Nat.min (i * chunk_size) n))
  = Ok (progress field coords uninit (Nat.min ((i + m) * chunk_size) n)).
Proof.
  intros n. subst n. revert i. induction m as [| m IH]; intros i.
  - simpl. rewrite Nat.add_0_r. reflexivity.
  - cbn [seq map inference_loop].
    rewrite (inference_step i). simpl bind.
    replace (i + 1)%nat with (S i) by lia. rewrite IH.
    replace (S i + m)%nat with (i + S m)%nat by lia. reflexivity.
Qed.

Lemma enumerate_map_seq {A : Type} (f : nat -> A) (m : nat) :
  enumerate (map f (seq 0 m)) = map (fun j => (j, f j)) (seq 0 m).
Proof.
  unfold enumerate. rewrite length_map, length_seq. generalize 0%nat.
  induction m as [| m IH]; intros a; [reflexivity |].
  simpl. f_equal. apply IH.
Qed.

Lemma num_splits_cover (n : nat) :
  (1 <= chunk_size)%nat ->
  (n <= Nat.max ((n + chunk_size - 1) / chunk_size) 1 * chunk_size)%nat.
Proof.
  intros Hcs.
  assert (Hdiv := Nat.div_mod_eq (n + chunk_size - 1) chunk_size).
  assert (Hmod := Nat.mod_upper_bound (n + chunk_size - 1) chunk_size ltac:(lia)).
  nia.
Qed.

Lemma chunked_query_complete :
  (1 <= chunk_size)%nat ->
  chunked_query model coords chunk_size uninit = Ok (written field coords).
Proof.
  intros Hcs. unfold chunked_query, split.
  destruct chunk_size as [| cs] eqn:Ecs; [lia |]. rewrite <- Ecs in *.
  simpl bind. rewrite enumerate_map_seq.
  assert (Hloop := inference_loop_progress
                     (Nat.max ((length coords + chunk_size - 1) / chunk_size) 1) 0).
  simpl in Hloop. unfold progress in Hloop at 1. simpl in Hloop.
  rewrite Hloop. f_equal. unfold progress.
  rewrite Nat.min_r by (apply num_splits_cover; exact Hcs).
  rewrite firstn_all, skipn_all2 by (rewrite torch_empty_length; lia).
  apply app_nil_r.
Qed.

End ChunkedQuery.

(** C10: for a model that answers point by point and any chunk size of at
    least 1, the chunked loop succeeds, stores to every element of the
    pre-sized buffer exactly once (also when the number of points is not a
    multiple of the chunk size), and leaves in it the values of a single call
    of the model on all the coordinates. *)
Theorem chunked_query_fills_buffer_once
    (model : CtCreation.XRayModel) (field : CtCreation.vec3 -> Q)
    (coords : list CtCreation.vec3) (chunk_size : nat) (uninit : nat -> Q) :
  (forall points, model points = map field points) ->
  (1 <= chunk_size)%nat ->
  exists output,
    CtCreation.chunked_query model coords chunk_size uninit = CtCreation.Ok output /\
    length output = length coords /\
    Forall (fun c => CtCreation.writes c = 1%nat) output /\
    map CtCreation.value output = model coords.
Proof.
  intros Hmodel Hcs. exists (written field coords).
  split; [apply chunked_query_complete; assumption |].
  unfold written. split; [apply length_map |]. split.
  - apply Forall_map, Forall_forall. reflexivity.
  - rewrite map_map, Hmodel. reflexivity.
Qed.

Lemma chunked_query_fills_buffer_once_witness :
  let field := fun p : CtCreation.vec3 => (fst (fst p) + snd (fst p) + snd p)%Q in
  let coords := [(1, 0, 0); (2, 0, 0); (3, 0, 0); (4, 0, 0); (5, 0, 0)]%Q in
  exists output,
    CtCreation.chunked_query (map field) coords 2 (fun _ => 0%Q)
    = CtCreation.Ok output /\
    length output = 5%nat /\
    Forall (fun c => CtCreation.writes c = 1%nat) output /\
    map CtCreation.value output = map field coords.
Proof.
  cbv zeta.
  apply (chunked_query_fills_buffer_once
           (map (fun p : CtCreation.vec3 => (fst (fst p) + snd (fst p) + snd p)%Q))
           (fun p : CtCreation.vec3 => (fst (fst p) + snd (fst p) + snd p)%Q)
           [(1, 0, 0); (2, 0, 0); (3, 0, 0); (4, 0, 0); (5, 0, 0)]%Q 2 (fun _ => 0%Q)).
  - reflexivity.
  - lia.
Defined.

(** * Further properties of the sampler *)

Section SamplerShapes.
Import Rays.
Local Open Scope Q_scope.

Lemma diff_append_total (t : list Q) (x : Q) :
  t <> [] -> row_total (diff (t ++ [x])) == x - hd 0 t.
Proof.
  induction t as [| a t IH]; intros Hne; [congruence |].
  destruct t as [| b t].
  - simpl. ring.
  - change (b - a + row_total (diff ((b :: t) ++ [x])) == x - a).
    rewrite IH by discriminate. simpl. ring.
Qed.

Lemma get_sampling_distances_row_default_inv (t_samples : list (list Q))
    (b : nat) (d : list Q) :
  nth_error (get_sampling_distances t_samples None) b = Some d ->
  exists t, nth_error t_samples b = Some t /\ d = diff (t ++ [1 * 2]).
Proof.
  intros Hd.
  destruct (nth_error t_samples b) as [t |] eqn:Ht.
  - exists t. split; [reflexivity |].
    rewrite (get_sampling_distances_row_default _ _ _ Ht) in Hd. congruence.
  - exfalso. apply nth_error_None in Ht.
    assert (Hlt : (b < length (get_sampling_distances t_samples None))%nat)
      by (apply nth_error_Some; congruence).
    unfold get_sampling_distances, torch_diff_append, Tensor.cat_dim1 in Hlt.
    rewrite length_map, map2_length in Hlt. lia.
Qed.

Lemma get_sampling_distances_length (t_samples : list (list Q))
    (ray_bounds : option (list (Q * Q))) :
  length (get_sampling_distances t_samples ray_bounds)
  = match ray_bounds with
    | Some rb => Nat.min (length t_samples) (length rb)
    | None => length t_samples
    end.
Proof.
  unfold get_sampling_distances, torch_diff_append, Tensor.cat_dim1, ones.
  rewrite length_map, map2_length. destruct ray_bounds as [rb |].
  - rewrite map2_length, repeat_length, length_map. lia.
  - rewrite length_map, repeat_length. lia.
Qed.

Lemma get_sampling_distances_row_lengths (t_samples : list (list Q))
    (ray_bounds : option (list (Q * Q))) (N : nat) :
  Forall (fun row => length row = N) t_samples ->
  Forall (fun row => length row = N) (get_sampling_distances t_samples ray_bounds).
Proof.
  intros Hrows. apply Forall_forall. intros d Hd.
  apply In_nth_error in Hd as [b Hb].
  rewrite Forall_forall in Hrows.
  destruct ray_bounds as [rb |].
  - apply get_sampling_distances_row_inv in Hb as (t & bounds & Ht & _ & ->).
    rewrite diff_append_length. apply Hrows. eapply nth_error_In. exact Ht.
  - apply get_sampling_distances_row_default_inv in Hb as (t & Ht & ->).
    rewrite diff_append_length. apply Hrows. eapply nth_error_In. exact Ht.
Qed.

Lemma flat_map_constant_length {A B : Type} (f : A -> list B) (l : list A) (N : nat) :
  Forall (fun x => length (f x) = N) l ->
  length (flat_map f l) = (length l * N)%nat.
Proof.
  intros H. induction H as [| x l Hx H IH]; [reflexivity |].
  simpl. rewrite length_app, Hx, IH. reflexivity.
Qed.


Lemma sampled_rows_length (start_pos heading_vector : list vec3)
    (t_samples : list (list Q)) (N : nat) :
  Forall (fun row => length row = N) t_samples ->
  Forall (fun r : vec3 * vec3 * list Q =>
            length (map (point_at (fst (fst r)) (snd (fst r))) (snd r)) = N)
         (combine (combine start_pos heading_vector) t_samples).
Proof.
  intros Hrows. apply Forall_forall. intros [sh row] Hin.
  rewrite length_map. simpl. rewrite Forall_forall in Hrows.
  apply Hrows. eapply in_combine_r. exact Hin.
Qed.

Lemma sampled_points_length (start_pos heading_vector : list vec3)
    (t_samples : list (list Q)) (B N : nat) :
  length start_pos = B -> length heading_vector = B -> length t_samples = B ->
  Forall (fun row => length row = N) t_samples ->
  length (sampled_points start_pos heading_vector t_samples) = (B * N)%nat.
Proof.
  intros Hs Hh Ht Hrows. unfold sampled_points.
  rewrite (flat_map_constant_length _ _ N).
  - rewrite !length_combine. lia.
  - apply sampled_rows_length. exact Hrows.
Qed.


End SamplerShapes.

Section SamplerSpan.
Import Rays.
Local Open Scope Q_scope.

Lemma ascending_head_least (l : list Q) :
  Sorted Qle l -> Forall (Qle (hd 0 l)) l.
Proof.
  intros Hs. apply Sorted_StronglySorted in Hs.
  - destruct Hs as [| a l Hs Hall]; [constructor |].
    simpl. constructor; [apply Qle_refl | exact Hall].
  - intros x y z. apply Qle_trans.
Qed.

Lemma get_fine_samples_row (strategy : nat -> list (list Q) -> list (list Q) -> list (list Q))
    (start_pos heading_vector : list vec3) (ray_bounds : list (Q * Q))
    (coarse_ts values dists : list (list Q)) (n b : nat)
    (c f : list Q) (bounds : Q * Q) :
  nth_error coarse_ts b = Some c ->
  nth_error (strategy n values dists) b = Some f ->
  nth_error ray_bounds b = Some bounds ->
  nth_error (snd (get_fine_samples strategy start_pos heading_vector ray_bounds
                    coarse_ts values dists n)) b
  = Some (diff (QSort.sort (c ++ f) ++ [1 * snd bounds])).
Proof.
  intros Hc Hf Hb. unfold get_fine_samples. cbn [snd].
  apply get_sampling_distances_row; [| exact Hb].
  apply merged_t_samples_row; assumption.
Qed.

End SamplerSpan.

(** X1: the distances of a ray telescope: for a ray with at least one
    sample they add up to the far bound (2 without ray bounds) minus the first
    t value. *)
Theorem get_sampling_distances_telescope
    (t_samples : list (list Q)) (b : nat) (t : list Q) :
  nth_error t_samples b = Some t -> t <> [] ->
  (forall (ray_bounds : list (Q * Q)) (near far : Q),
     nth_error ray_bounds b = Some (near, far) ->
     exists distances,
       nth_error (Rays.get_sampling_distances t_samples (Some ray_bounds)) b
       = Some distances /\
       (row_total distances + hd 0 t == far)%Q) /\
  (exists distances,
     nth_error (Rays.get_sampling_distances t_samples None) b = Some distances /\
     (row_total distances + hd 0 t == 2)%Q).
Proof.
  intros Ht Hne. split.
  - intros ray_bounds near far Hb. eexists. split.
    + apply (get_sampling_distances_row _ _ _ _ _ Ht Hb).
    + rewrite diff_append_total by exact Hne. simpl. ring.
  - eexists. split.
    + apply (get_sampling_distances_row_default _ _ _ Ht).
    + rewrite diff_append_total by exact Hne. ring.
Qed.

Lemma get_sampling_distances_telescope_witness :
  (exists distances,
     nth_error (Rays.get_sampling_distances [[0.1; 0.5; 0.9]%Q] (Some [(0, 1)%Q])) 0
     = Some distances /\
     (row_total distances + 0.1 == 1)%Q) /\
  (exists distances,
     nth_error (Rays.get_sampling_distances [[0.1; 0.5; 0.9]%Q] None) 0
     = Some distances /\
     (row_total distances + 0.1 == 2)%Q).
Proof.
  destruct (get_sampling_distances_telescope [[0.1; 0.5; 0.9]%Q] 0
              [0.1; 0.5; 0.9]%Q eq_refl ltac:(discriminate))
    as [Hbounds Hdefault].
  split.
  - apply (Hbounds [(0, 1)%Q] 0%Q 1%Q). reflexivity.
  - exact Hdefault.
Defined.

(** X2: on B rays with N samples each the coarse pass returns the t values
    of the sampling function unchanged, B * N points and B rows of N
    distances, with ray bounds or without. *)
Theorem get_coarse_samples_shapes
    (sampling_function :
       nat -> nat -> option Q -> option (list (Q * Q)) -> list (list Q))
    (start_pos heading_vector : list Rays.vec3) (n_samples batch_size : nat)
    (ray_bounds : option (list (Q * Q))) (plateau_ratio : option Q) (B N : nat) :
  let t_samples := sampling_function n_samples batch_size plateau_ratio ray_bounds in
  length start_pos = B -> length heading_vector = B ->
  match ray_bounds with Some rb => length rb = B | None => True end ->
  length t_samples = B -> Forall (fun row => length row = N) t_samples ->
  let out := Rays.get_coarse_samples sampling_function start_pos heading_vector
               n_samples batch_size ray_bounds plateau_ratio in
  fst (fst out) = t_samples /\
  length (snd (fst out)) = (B * N)%nat /\
  length (snd out) = B /\
  Forall (fun row => length row = N) (snd out).
Proof.
  intros t_samples Hs Hh Hrb Ht Hrows out. subst out.
  unfold Rays.get_coarse_samples. cbn [fst snd]. fold t_samples.
  split; [reflexivity |]. split; [| split].
  - apply sampled_points_length; assumption.
  - rewrite get_sampling_distances_length.
    destruct ray_bounds as [rb |]; lia.
  - apply get_sampling_distances_row_lengths. exact Hrows.
Qed.

Lemma get_coarse_samples_shapes_witness :
  let out := Rays.get_coarse_samples
               (fun _ _ _ _ => [[0.1; 0.5; 0.9]; [0.2; 0.4; 0.6]]%Q)
               [(1, 0, 0); (0, 1, 0)]%Q [(- (1), 0, 0); (0, - (1), 0)]%Q
               3 2 (Some [(0, 1); (0, 2)]%Q) None in
  length (snd (fst out)) = 6%nat /\ length (snd out) = 2%nat /\
  Forall (fun row => length row = 3%nat) (snd out).
Proof.
  cbv zeta.
  apply (get_coarse_samples_shapes
           (fun _ _ _ _ => [[0.1; 0.5; 0.9]; [0.2; 0.4; 0.6]]%Q)
           [(1, 0, 0); (0, 1, 0)]%Q [(- (1), 0, 0); (0, - (1), 0)]%Q
           3 2 (Some [(0, 1); (0, 2)]%Q) None 2 3);
    try reflexivity.
  repeat constructor.
Defined.



(** X4: in the fine pass a ray with coarse samples [c] and fine samples [f]
    gets [length c + length f] distances, and they add up to the far bound
    minus the smallest of all its t values. *)
Theorem get_fine_samples_row_span
    (strategy : nat -> list (list Q) -> list (list Q) -> list (list Q))
    (start_pos heading_vector : list Rays.vec3) (ray_bounds : list (Q * Q))
    (coarse_ts values dists : list (list Q)) (n b : nat)
    (c f : list Q) (near far : Q) :
  nth_error coarse_ts b = Some c ->
  nth_error (strategy n values dists) b = Some f ->
  nth_error ray_bounds b = Some (near, far) ->
  c ++ f <> [] ->
  exists distances t_min,
    nth_error (snd (Rays.get_fine_samples strategy start_pos heading_vector
                      ray_bounds coarse_ts values dists n)) b
    = Some distances /\
    length distances = (length c + length f)%nat /\
    In t_min (c ++ f) /\ Forall (Qle t_min) (c ++ f) /\
    (row_total distances == far - t_min)%Q.
Proof.
  intros Hc Hf Hb Hne.
  assert (Hperm := QSort.Permuted_sort (c ++ f)).
  assert (Hsne : QSort.sort (c ++ f) <> []).
  { intros E. rewrite E in Hperm. apply Permutation_sym, Permutation_nil in Hperm.
    contradiction. }
  exists (Rays.diff (QSort.sort (c ++ f) ++ [1 * snd (near, far)]%Q)),
         (hd 0%Q (QSort.sort (c ++ f))).
  split; [apply get_fine_samples_row; assumption |].
  split; [| split; [| split]].
  - rewrite diff_append_length, <- (Permutation_length Hperm). apply length_app.
  - apply (Permutation_in _ (Permutation_sym Hperm)).
    destruct (QSort.sort (c ++ f)); [congruence | left; reflexivity].
  - apply (Permutation_Forall (Permutation_sym Hperm)).
    apply ascending_head_least, sort_ascending.
  - rewrite diff_append_total by exact Hsne. simpl. ring.
Qed.

Lemma get_fine_samples_row_span_witness :
  exists distances t_min,
    nth_error (snd (Rays.get_fine_samples (fun _ _ _ => [[0.3; 0.05]%Q])
                      [(1, 0, 0)%Q] [(- (1), 0, 0)%Q] [(0, 1)%Q]
                      [[0.1; 0.5; 0.9]%Q] [[0; 0; 0]%Q] [[0.4; 0.4; 0.1]%Q] 2)) 0
    = Some distances /\
    length distances = 5%nat /\
    In t_min [0.1; 0.5; 0.9; 0.3; 0.05]%Q /\
    Forall (Qle t_min) [0.1; 0.5; 0.9; 0.3; 0.05]%Q /\
    (row_total distances == 1 - t_min)%Q.
Proof.
  apply (get_fine_samples_row_span (fun _ _ _ => [[0.3; 0.05]%Q])
           [(1, 0, 0)%Q] [(- (1), 0, 0)%Q] [(0, 1)%Q]
           [[0.1; 0.5; 0.9]%Q] [[0; 0; 0]%Q] [[0.4; 0.4; 0.1]%Q] 2 0
           [0.1; 0.5; 0.9]%Q [0.3; 0.05]%Q 0%Q 1%Q);
    try reflexivity.
  discriminate.
Defined.

(** * Further properties of the ray geometry *)

Section RotationFacts.
Import Rays.
Local Open Scope R_scope.

Lemma rotation_row (angles : list R) (b : nat) (theta : R) :
  nth_error angles b = Some theta ->
  nth_error (fst (_create_z_rotation_matrix angles)) b
  = Some ((cos theta, - sin theta, 0), (sin theta, cos theta, 0), (0, 0, 1)).
Proof.
  intros Ha. unfold _create_z_rotation_matrix. cbn [fst].
  apply (nth_error_map2 (fun c s : R => ((c, - s, 0), (s, c, 0), (0, 0, 1)))).
  - apply map_nth_error. exact Ha.
  - apply map_nth_error. exact Ha.
Qed.

Lemma heading_row (angles : list R) (b : nat) (theta : R) :
  nth_error angles b = Some theta ->
  nth_error (snd (_create_z_rotation_matrix angles)) b
  = Some (- cos theta, - sin theta, - 0).
Proof.
  intros Ha. unfold _create_z_rotation_matrix. cbn [snd].
  apply (nth_error_map2 (fun c s : R => (- c, - s, - 0))).
  - apply map_nth_error. exact Ha.
  - apply map_nth_error. exact Ha.
Qed.

Lemma get_rays_heading_row (pixel_pos : list (R * R)) (angles : list R)
    (img_shape : R * R) (b : nat) (theta : R) :
  nth_error angles b = Some theta ->
  nth_error (snd (fst (get_rays pixel_pos angles img_shape))) b
  = Some (- cos theta, - sin theta, - 0).
Proof.
  intros Ha. unfold get_rays.
  destruct (_create_z_rotation_matrix angles) as [rot heading] eqn:E.
  cbn [fst snd].
  replace heading with (snd (_create_z_rotation_matrix angles)) by (rewrite E; reflexivity).
  apply heading_row. exact Ha.
Qed.

Lemma get_rays_bounds_eq (pixel_pos : list (R * R)) (angles : list R)
    (img_shape : R * R) :
  snd (get_rays pixel_pos angles img_shape)
  = _get_ray_bounds (fst (fst (get_rays pixel_pos angles img_shape)))
                    (snd (fst (get_rays pixel_pos angles img_shape))).
Proof.
  unfold get_rays.
  destruct (_create_z_rotation_matrix angles) as [rot heading]. reflexivity.
Qed.

Lemma rotation_keeps_radius (c s x y z : R) :
  Rsqr s + Rsqr c = 1 ->
  (c * x + - s * y + 0 * z) ^ 2 + (s * x + c * y + 0 * z) ^ 2 = x ^ 2 + y ^ 2.
Proof.
  unfold Rsqr. intros H.
  replace ((c * x + - s * y + 0 * z) ^ 2 + (s * x + c * y + 0 * z) ^ 2)
    with ((s * s + c * c) * (x ^ 2 + y ^ 2)) by ring.
  rewrite H. ring.
Qed.

End RotationFacts.

(** X5: the matrices of [_create_z_rotation_matrix] are rotations about the
    z axis: each keeps x^2 + y^2 and the z coordinate of every vector, the
    matrix of angle 0 acts as the identity, and when the angle of ray [k] is
    the sum of the angles of rays [i] and [j], applying the matrices of [j]
    and then of [i] is applying the matrix of [k]. *)
Theorem z_rotation_matrix_is_rotation
    (angles : list R) (i j k : nat) (alpha beta : R) (v : Rays.rvec3) :
  nth_error angles i = Some alpha ->
  nth_error angles j = Some beta ->
  nth_error angles k = Some (alpha + beta)%R ->
  exists m_i m_j m_k,
    nth_error (fst (Rays._create_z_rotation_matrix angles)) i = Some m_i /\
    nth_error (fst (Rays._create_z_rotation_matrix angles)) j = Some m_j /\
    nth_error (fst (Rays._create_z_rotation_matrix angles)) k = Some m_k /\
    (let '(x, y, z) := v in
     let '(x', y', z') := Rays.mat_vec m_i v in
     (x' ^ 2 + y' ^ 2 = x ^ 2 + y ^ 2)%R /\ z' = z) /\
    (alpha = 0%R -> Rays.mat_vec m_i v = v) /\
    Rays.mat_vec m_i (Rays.mat_vec m_j v) = Rays.mat_vec m_k v.
Proof.
  intros Hi Hj Hk. eexists. eexists. eexists.
  split; [apply rotation_row; exact Hi |].
  split; [apply rotation_row; exact Hj |].
  split; [apply rotation_row; exact Hk |].
  destruct v as [[x y] z]. split; [| split].
  - simpl. split; [| ring].
    apply (rotation_keeps_radius (cos alpha) (sin alpha) x y z).
    apply sin2_cos2.
  - intros ->. simpl. rewrite cos_0, sin_0.
    apply f_equal2; [apply f_equal2 |]; ring.
  - simpl. rewrite cos_plus, sin_plus.
    apply f_equal2; [apply f_equal2 |]; ring.
Qed.

Lemma z_rotation_matrix_is_rotation_witness :
  exists m,
    nth_error (fst (Rays._create_z_rotation_matrix [0%R])) 0 = Some m /\
    Rays.mat_vec m (3, 4, 5)%R = (3, 4, 5)%R /\
    Rays.mat_vec m (Rays.mat_vec m (3, 4, 5)%R) = Rays.mat_vec m (3, 4, 5)%R.
Proof.
  assert (Hk : nth_error [0%R] 0 = Some (0 + 0)%R)
    by (simpl; f_equal; lra).
  destruct (z_rotation_matrix_is_rotation [0%R] 0 0 0 0%R 0%R (3, 4, 5)%R
              eq_refl eq_refl Hk)
    as (m_i & m_j & m_k & Hi & Hj & Hmk & _ & Hid & Hcomp).
  assert (Eij : m_j = m_i) by congruence.
  assert (Eik : m_k = m_i) by congruence.
  subst m_j m_k. exists m_i. split; [exact Hi |]. split.
  - apply Hid. reflexivity.
  - exact Hcomp.
Defined.

(** X6: every heading vector of [_create_z_rotation_matrix] has magnitude 1
    in the projection plane and no axial component, and is the rotated
    direction (-1, 0, 0). *)
Theorem heading_vector_unit (angles : list R) (b : nat) (theta : R) :
  nth_error angles b = Some theta ->
  exists m h,
    nth_error (fst (Rays._create_z_rotation_matrix angles)) b = Some m /\
    nth_error (snd (Rays._create_z_rotation_matrix angles)) b = Some h /\
    unit_heading h /\ snd h = 0%R /\
    h = Rays.mat_vec m (- (1), 0, 0)%R.
Proof.
  intros Ha. eexists. eexists.
  split; [apply rotation_row; exact Ha |].
  split; [apply heading_row; exact Ha |].
  split; [| split].
  - unfold unit_heading. assert (H := sin2_cos2 theta). unfold Rsqr in H. nra.
  - simpl. ring.
  - simpl. apply f_equal2; [apply f_equal2 |]; ring.
Qed.

Lemma heading_vector_unit_witness :
  exists m h,
    nth_error (fst (Rays._create_z_rotation_matrix [0%R])) 0 = Some m /\
    nth_error (snd (Rays._create_z_rotation_matrix [0%R])) 0 = Some h /\
    unit_heading h /\ snd h = 0%R /\
    h = Rays.mat_vec m (- (1), 0, 0)%R.
Proof.
  apply (heading_vector_unit [0%R] 0 0%R). reflexivity.
Defined.

Section CylinderIntersection.
Import Rays.
Local Open Scope R_scope.

(** Along a ray with a unit heading, x^2 + y^2 - 1 is the quadratic
    t^2 + 2 * p_half * t + q. *)
Lemma ray_radius_quadratic (start heading : rvec3) (t : R) :
  unit_heading heading ->
  let '(x, y, _) := ray_point start heading t in
  x ^ 2 + y ^ 2 - 1 = (t + p_half_of start heading) ^ 2 - discriminant start heading.
Proof.
  destruct start as [[a b] c], heading as [[v_x v_y] v_z].
  unfold unit_heading, discriminant, p_half_of, q_of, ray_point. intros Hu.
  replace ((a + t * v_x) ^ 2 + (b + t * v_y) ^ 2 - 1)
    with (a ^ 2 + b ^ 2 - 1 + 2 * t * (a * v_x + b * v_y)
          + t ^ 2 * (v_x ^ 2 + v_y ^ 2)) by ring.
  rewrite Hu. ring.
Qed.

Lemma saturating_sqrt_square (x : R) :
  0 <= x -> nan_to_num (torch_sqrt x) 0 ^ 2 = x.
Proof.
  intros Hx. unfold torch_sqrt.
  destruct (Rlt_dec x 0) as [Hneg | _]; [lra |].
  simpl. rewrite Rmult_1_r. apply sqrt_sqrt. exact Hx.
Qed.

End CylinderIntersection.

(** X7: for a ray with a unit heading, when the discriminant is not negative
    the two bounds of [_get_ray_bounds] are the parameters at which the ray
    meets the cylinder x^2 + y^2 = 1; when it is negative no point of the ray
    lies on the cylinder. *)
Theorem get_ray_bounds_meet_cylinder
    (start_pos heading_vector : list Rays.rvec3) (b : nat)
    (start heading : Rays.rvec3) :
  nth_error start_pos b = Some start ->
  nth_error heading_vector b = Some heading ->
  unit_heading heading ->
  exists t1 t2,
    nth_error (Rays._get_ray_bounds start_pos heading_vector) b = Some (t1, t2) /\
    ((0 <= discriminant start heading)%R ->
     on_unit_cylinder (ray_point start heading t1) /\
     on_unit_cylinder (ray_point start heading t2)) /\
    ((discriminant start heading < 0)%R ->
     forall t, ~ on_unit_cylinder (ray_point start heading t)).
Proof.
  intros Hs Hh Hu. eexists. eexists.
  split; [apply ray_bounds_row; eassumption |]. split.
  - intros Hd.
    assert (Hsq := saturating_sqrt_square _ Hd).
    set (r := Rays.nan_to_num (Rays.torch_sqrt (discriminant start heading)) 0) in *.
    split.
    + assert (H := ray_radius_quadratic start heading
                     (- Rays.p_half_of start heading - r) Hu).
      destruct (ray_point start heading (- Rays.p_half_of start heading - r))
        as [[x y] z].
      unfold on_unit_cylinder. nra.
    + assert (H := ray_radius_quadratic start heading
                     (- Rays.p_half_of start heading + r) Hu).
      destruct (ray_point start heading (- Rays.p_half_of start heading + r))
        as [[x y] z].
      unfold on_unit_cylinder. nra.
  - intros Hd t Hon.
    assert (H := ray_radius_quadratic start heading t Hu).
    destruct (ray_point start heading t) as [[x y] z].
    unfold on_unit_cylinder in Hon.
    assert (Hpos := pow2_ge_0 (t + Rays.p_half_of start heading)). lra.
Qed.

Lemma get_ray_bounds_meet_cylinder_witness :
  (exists t1 t2,
     nth_error (Rays._get_ray_bounds [(1, 0, 0)%R] [(- (1), 0, 0)%R]) 0
     = Some (t1, t2) /\
     on_unit_cylinder (ray_point (1, 0, 0)%R (- (1), 0, 0)%R t1) /\
     on_unit_cylinder (ray_point (1, 0, 0)%R (- (1), 0, 0)%R t2)) /\
  ~ on_unit_cylinder (ray_point (1, 2, 0)%R (- (1), 0, 0)%R 1).
Proof.
  assert (Hu : unit_heading (- (1), 0, 0)%R) by (unfold unit_heading; lra).
  split.
  - destruct (get_ray_bounds_meet_cylinder [(1, 0, 0)%R] [(- (1), 0, 0)%R] 0%nat
                (1, 0, 0)%R (- (1), 0, 0)%R eq_refl eq_refl Hu)
      as (t1 & t2 & Hrow & Hmeet & _).
    exists t1, t2. split; [exact Hrow |]. apply Hmeet.
    unfold discriminant. simpl. lra.
  - destruct (get_ray_bounds_meet_cylinder [(1, 2, 0)%R] [(- (1), 0, 0)%R] 0%nat
                (1, 2, 0)%R (- (1), 0, 0)%R eq_refl eq_refl Hu)
      as (t1 & t2 & _ & _ & Hmiss).
    apply Hmiss. unfold discriminant. simpl. lra.
Defined.

(** X8: for every ray of [get_rays] with normalized first pixel coordinate
    [n], the bounds are symmetric about parameter 1 and lie in [0, 2]: they
    are 1 -/+ sqrt (1 - n^2) when n^2 <= 1 and both 1 otherwise. *)
Theorem get_rays_bounds_range
    (pixel_pos : list (R * R)) (angles : list R) (img_shape : R * R)
    (b : nat) (pixel : R * R) (theta : R) :
  nth_error pixel_pos b = Some pixel ->
  nth_error angles b = Some theta ->
  let n := fst (Rays.normalize_pixel pixel img_shape) in
  exists t1 t2,
    nth_error (snd (Rays.get_rays pixel_pos angles img_shape)) b = Some (t1, t2) /\
    (0 <= t1 <= t2)%R /\ (t2 <= 2)%R /\ (t1 + t2 = 2)%R /\
    ((n ^ 2 <= 1)%R -> t1 = (1 - sqrt (1 - n ^ 2))%R /\ t2 = (1 + sqrt (1 - n ^ 2))%R) /\
    ((1 < n ^ 2)%R -> t1 = 1%R /\ t2 = 1%R).
Proof.
  intros Hp Ha n.
  assert (Hstart := get_rays_start_row pixel_pos angles img_shape b pixel theta Hp Ha).
  assert (Hhead := get_rays_heading_row pixel_pos angles img_shape b theta Ha).
  cbv zeta in Hstart. fold n in Hstart.
  set (m := snd (Rays.normalize_pixel pixel img_shape)) in *.
  set (c := cos theta) in *. set (s := sin theta) in *.
  assert (Hcs : (s * s + c * c = 1)%R) by apply (sin2_cos2 theta).
  rewrite get_rays_bounds_eq.
  assert (Hph : Rays.p_half_of (c * 1 + - s * n + 0 * m, s * 1 + c * n + 0 * m,
                                0 * 1 + 0 * n + 1 * m)%R (- c, - s, - 0)%R
                = (- (1))%R).
  { unfold Rays.p_half_of. nra. }
  assert (Hdisc : discriminant (c * 1 + - s * n + 0 * m, s * 1 + c * n + 0 * m,
                                0 * 1 + 0 * n + 1 * m)%R (- c, - s, - 0)%R
                  = (1 - n ^ 2)%R).
  { unfold discriminant. rewrite Hph. unfold Rays.q_of.
    replace ((c * 1 + - s * n + 0 * m) ^ 2 + (s * 1 + c * n + 0 * m) ^ 2)%R
      with ((s * s + c * c) * (1 + n ^ 2))%R by ring.
    rewrite Hcs. ring. }
  eexists. eexists.
  split; [apply (ray_bounds_row _ _ _ _ _ Hstart Hhead) |].
  rewrite Hph, Hdisc.
  unfold Rays.torch_sqrt.
  destruct (Rlt_dec (1 - n ^ 2) 0) as [Hneg | Hpos]; cbn [Rays.nan_to_num].
  - repeat split; try lra.
  - assert (H0 := sqrt_pos (1 - n ^ 2)).
    assert (H1 : (sqrt (1 - n ^ 2) <= 1)%R).
    { apply Rle_trans with (sqrt 1); [| rewrite sqrt_1; lra].
      apply sqrt_le_1_alt. assert (Hn := pow2_ge_0 n). lra. }
    repeat split; try lra.
Qed.

Lemma get_rays_bounds_range_witness :
  exists t1 t2,
    nth_error (snd (Rays.get_rays [(1, 0)%R] [0%R] (3, 3)%R)) 0 = Some (t1, t2) /\
    t1 = 0%R /\ t2 = 2%R.
Proof.
  destruct (get_rays_bounds_range [(1, 0)%R] [0%R] (3, 3)%R 0%nat (1, 0)%R 0%R
              eq_refl eq_refl)
    as (t1 & t2 & Hrow & _ & _ & _ & Hin & _).
  exists t1, t2. split; [exact Hrow |].
  assert (Hn : (fst (Rays.normalize_pixel (1, 0) (3, 3)) = 0)%R)
    by (simpl; lra).
  rewrite Hn in Hin. destruct Hin as [H1 H2]; [lra |].
  replace (1 - 0 ^ 2)%R with 1%R in H1, H2 by lra.
  rewrite sqrt_1 in H1, H2. split; lra.
Defined.



(** * Further properties of the transmittance *)

Section TransmittanceFacts.
Import Rays.
Local Open Scope R_scope.

Lemma beer_lambert_law_row (coeffs distances : list (list R)) (s k : option R)
    (slice_size_cm : R) (b : nat) (c d : list R) :
  no_scaling s k ->
  nth_error coeffs b = Some c -> nth_error distances b = Some d ->
  nth_error (beer_lambert_law coeffs distances s k slice_size_cm) b
  = Some (exp (- row_sum (Tensor.map2 Rmult c
                            (map (fun x => x * slice_size_cm / 2) d)))).
Proof.
  intros Hsk Hc Hd. rewrite beer_lambert_law_unscaled by exact Hsk.
  apply (nth_error_map2
           (fun c0 d0 => exp (- row_sum (Tensor.map2 Rmult c0
                                (map (fun x => x * slice_size_cm / 2) d0)))));
    assumption.
Qed.

Lemma row_sum_nonneg (c d : list R) :
  Forall (fun x => 0 <= x) c -> Forall (fun x => 0 <= x) d ->
  0 <= row_sum (Tensor.map2 Rmult c d).
Proof.
  intros Hc. revert d. induction Hc as [| x c Hx Hc IH]; intros d Hd.
  - apply Rle_refl.
  - destruct Hd as [| y d Hy Hd]; [apply Rle_refl |].
    change (0 <= x * y + row_sum (Tensor.map2 Rmult c d)).
    specialize (IH d Hd). nra.
Qed.

Lemma row_sum_scale (d : list R) (a : R) :
  row_sum (map (fun x => x * a / 2) d) = row_sum d * a / 2.
Proof.
  induction d as [| x d IH]; simpl; [lra |]. rewrite IH. lra.
Qed.

Lemma row_sum_constant_coeffs (c d : list R) (c0 : R) :
  Forall (fun x => x = c0) c -> length c = length d ->
  row_sum (Tensor.map2 Rmult c d) = c0 * row_sum d.
Proof.
  intros Hc. revert d. induction Hc as [| x c Hx Hc IH]; intros [| y d] Hlen;
    try discriminate.
  - simpl. ring.
  - change (x * y + row_sum (Tensor.map2 Rmult c d) = c0 * (y + row_sum d)).
    rewrite IH by (simpl in Hlen; lia). rewrite Hx. ring.
Qed.

Lemma row_sum_segments (c1 c2 d1 d2 : list R) :
  length c1 = length d1 ->
  row_sum (Tensor.map2 Rmult (c1 ++ c2) (d1 ++ d2))
  = row_sum (Tensor.map2 Rmult c1 d1) + row_sum (Tensor.map2 Rmult c2 d2).
Proof.
  revert d1. induction c1 as [| x c1 IH]; intros [| y d1] Hlen; try discriminate.
  - simpl. ring.
  - change (x * y + row_sum (Tensor.map2 Rmult (c1 ++ c2) (d1 ++ d2))
            = x * y + row_sum (Tensor.map2 Rmult c1 d1)
              + row_sum (Tensor.map2 Rmult c2 d2)).
    rewrite IH by (simpl in Hlen; lia). ring.
Qed.

Lemma beer_lambert_law_scaled (coeffs distances : list (list R)) (s k : R)
    (slice_size_cm : R) :
  beer_lambert_law coeffs distances (Some s) (Some k) slice_size_cm
  = map (fun e => ln (e + k) / s)
        (beer_lambert_law coeffs distances None None slice_size_cm).
Proof. reflexivity. Qed.

Lemma beer_lambert_law_positive (coeffs distances : list (list R))
    (slice_size_cm : R) :
  Forall (fun T => 0 < T) (beer_lambert_law coeffs distances None None slice_size_cm).
Proof.
  unfold beer_lambert_law. apply Forall_map, Forall_forall.
  intros row _. apply exp_pos.
Qed.

End TransmittanceFacts.

(** X10: without (s, k) scaling, a ray with non-negative coefficients,
    non-negative distances and a non-negative slice size has a transmittance
    in (0, 1]. *)
Theorem beer_lambert_law_range
    (coeffs distances : list (list R)) (s k : option R) (slice_size_cm : R)
    (b : nat) (c d : list R) :
  no_scaling s k -> (0 <= slice_size_cm)%R ->
  nth_error coeffs b = Some c -> nth_error distances b = Some d ->
  Forall (fun x => (0 <= x)%R) c -> Forall (fun x => (0 <= x)%R) d ->
  exists T,
    nth_error (Rays.beer_lambert_law coeffs distances s k slice_size_cm) b = Some T /\
    (0 < T <= 1)%R.
Proof.
  intros Hsk Hs Hc Hd Hcpos Hdpos. eexists.
  split; [apply beer_lambert_law_row; eassumption |]. split.
  - apply exp_pos.
  - rewrite <- exp_0. apply exp_monotone.
    assert (H : (0 <= Rays.row_sum (Tensor.map2 Rmult c
                        (map (fun x => x * slice_size_cm / 2) d)))%R).
    { apply row_sum_nonneg; [exact Hcpos |].
      apply Forall_map. eapply Forall_impl; [| exact Hdpos].
      simpl. intros x Hx. nra. }
    lra.
Qed.

Lemma beer_lambert_law_range_witness :
  exists T,
    nth_error (Rays.beer_lambert_law [[0.1; 0.2]%R] [[0.5; 0.25]%R] None None 30) 0
    = Some T /\
    (0 < T <= 1)%R.
Proof.
  apply (beer_lambert_law_range [[0.1; 0.2]%R] [[0.5; 0.25]%R] None None 30 0
           [0.1; 0.2]%R [0.5; 0.25]%R).
  - left. reflexivity.
  - lra.
  - reflexivity.
  - reflexivity.
  - repeat constructor; lra.
  - repeat constructor; lra.
Defined.

(** X11: without (s, k) scaling, a ray whose coefficients all equal [c0]
    has transmittance exp (- c0 * L * slice_size_cm / 2), where L is the sum
    of its distances. *)
Theorem beer_lambert_law_flat_field
    (coeffs distances : list (list R)) (s k : option R) (slice_size_cm : R)
    (b : nat) (c d : list R) (c0 : R) :
  no_scaling s k ->
  nth_error coeffs b = Some c -> nth_error distances b = Some d ->
  Forall (fun x => x = c0) c -> length c = length d ->
  nth_error (Rays.beer_lambert_law coeffs distances s k slice_size_cm) b
  = Some (exp (- c0 * Rays.row_sum d * slice_size_cm / 2)).
Proof.
  intros Hsk Hc Hd Hflat Hlen.
  rewrite (beer_lambert_law_row _ _ _ _ _ _ _ _ Hsk Hc Hd).
  rewrite (row_sum_constant_coeffs c _ c0 Hflat) by (rewrite length_map; exact Hlen).
  rewrite row_sum_scale. do 2 f_equal. unfold Rdiv. ring.
Qed.

Lemma beer_lambert_law_flat_field_witness :
  nth_error (Rays.beer_lambert_law [[0.2; 0.2]%R] [[0.5; 1.5]%R] None None 30) 0
  = Some (exp (- (0.2) * Rays.row_sum [0.5; 1.5]%R * 30 / 2)).
Proof.
  apply (beer_lambert_law_flat_field [[0.2; 0.2]%R] [[0.5; 1.5]%R] None None 30 0
           [0.2; 0.2]%R [0.5; 1.5]%R 0.2%R).
  - left. reflexivity.
  - reflexivity.
  - reflexivity.
  - repeat constructor.
  - reflexivity.
Defined.

(** X12: without (s, k) scaling, the transmittance of a ray is the product
    of the transmittances of its segments: samples (c1, d1) followed by
    samples (c2, d2) give T1 * T2. *)
Theorem beer_lambert_law_segments
    (c1 c2 d1 d2 : list R) (s k : option R) (slice_size_cm : R) :
  no_scaling s k -> length c1 = length d1 ->
  exists T1 T2,
    Rays.beer_lambert_law [c1] [d1] s k slice_size_cm = [T1] /\
    Rays.beer_lambert_law [c2] [d2] s k slice_size_cm = [T2] /\
    Rays.beer_lambert_law [c1 ++ c2] [d1 ++ d2] s k slice_size_cm = [(T1 * T2)%R].
Proof.
  intros Hsk Hlen. rewrite !beer_lambert_law_unscaled by exact Hsk.
  eexists. eexists. split; [reflexivity |]. split; [reflexivity |].
  unfold Tensor.map2 at 1. simpl combine. simpl map at 1. f_equal.
  rewrite map_app, row_sum_segments by (rewrite length_map; exact Hlen).
  rewrite Ropp_plus_distr. apply exp_plus.
Qed.

Lemma beer_lambert_law_segments_witness :
  exists T1 T2,
    Rays.beer_lambert_law [[0.1]%R] [[0.5]%R] None None 30 = [T1] /\
    Rays.beer_lambert_law [[0.2]%R] [[0.25]%R] None None 30 = [T2] /\
    Rays.beer_lambert_law [[0.1; 0.2]%R] [[0.5; 0.25]%R] None None 30
    = [(T1 * T2)%R].
Proof.
  apply (beer_lambert_law_segments [0.1]%R [0.2]%R [0.5]%R [0.25]%R None None 30).
  - left. reflexivity.
  - reflexivity.
Defined.

(** X13: with (s, k) supplied, every result is ln (T + k) / s for the
    unscaled transmittance T of the same ray, so for s <> 0 and k >= 0 the
    transmittance is recovered as exp (s * result) - k. *)
Theorem beer_lambert_law_scaling_inverts
    (coeffs distances : list (list R)) (s k : R) (slice_size_cm : R) :
  s <> 0%R -> (0 <= k)%R ->
  Forall2 (fun r T => r = (ln (T + k) / s)%R /\ (exp (s * r) - k)%R = T)
          (Rays.beer_lambert_law coeffs distances (Some s) (Some k) slice_size_cm)
          (Rays.beer_lambert_law coeffs distances None None slice_size_cm).
Proof.
  intros Hs Hk. rewrite beer_lambert_law_scaled.
  assert (Hpos := beer_lambert_law_positive coeffs distances slice_size_cm).
  induction Hpos as [| T l HT Hpos IH]; simpl; constructor; [| exact IH].
  split; [reflexivity |].
  replace (s * (ln (T + k) / s))%R with (ln (T + k)) by (field; exact Hs).
  rewrite exp_ln by lra. ring.
Qed.

Lemma beer_lambert_law_scaling_inverts_witness :
  Forall2 (fun r T => r = (ln (T + 1) / 2)%R /\ (exp (2 * r) - 1)%R = T)
          (Rays.beer_lambert_law [[0.1; 0.2]%R] [[0.5; 0.25]%R] (Some 2%R) (Some 1%R) 30)
          (Rays.beer_lambert_law [[0.1; 0.2]%R] [[0.5; 0.25]%R] None None 30).
Proof.
  apply (beer_lambert_law_scaling_inverts [[0.1; 0.2]%R] [[0.5; 0.25]%R] 2 1 30); lra.
Defined.

(** * Further properties of the volume assembly *)

Section SplitFacts.
Import CtCreation.
Context {A : Type}.

Lemma firstn_add (a b : nat) (l : list A) :
  firstn (a + b) l = firstn a l ++ firstn b (skipn a l).
Proof.
  revert l. induction a as [| a IH]; intros l; [reflexivity |].
  destruct l as [| x l]; [simpl; rewrite firstn_nil; reflexivity |].
  simpl. f_equal. apply IH.
Qed.

Lemma concat_chunks (l : list A) (chunk_size m : nat) :
  concat (map (fun i => firstn chunk_size (skipn (i * chunk_size) l)) (seq 0 m))
  = firstn (m * chunk_size) l.
Proof.
  induction m as [| m IH]; [reflexivity |].
  rewrite seq_S, map_app, concat_app, IH. simpl.
  rewrite app_nil_r, <- firstn_add. f_equal. lia.
Qed.

Lemma num_splits_tight (chunk_size n : nat) :
  (1 <= chunk_size)%nat ->
  ((Nat.max ((n + chunk_size - 1) / chunk_size) 1 - 1) * chunk_size <= n)%nat /\
  (1 <= n -> (Nat.max ((n + chunk_size - 1) / chunk_size) 1 - 1) * chunk_size < n)%nat.
Proof.
  intros Hcs.
  assert (Hdiv := Nat.div_mod_eq (n + chunk_size - 1) chunk_size).
  assert (Hmod := Nat.mod_upper_bound (n + chunk_size - 1) chunk_size ltac:(lia)).
  split; [| intros Hn]; nia.
Qed.

Lemma split_positive (l : list A) (chunk_size : nat) :
  (1 <= chunk_size)%nat ->
  split l chunk_size
  = Ok (map (fun i => firstn chunk_size (skipn (i * chunk_size) l))
            (seq 0 (Nat.max ((length l + chunk_size - 1) / chunk_size) 1))).
Proof.
  intros Hcs. destruct chunk_size as [| cs]; [lia | reflexivity].
Qed.

End SplitFacts.

(** X14: for a chunk size of at least 1, [split] succeeds with
    max(ceil(n / chunk_size), 1) chunks whose concatenation is the input; every
    chunk but the last has exactly [chunk_size] elements, the last has at most
    [chunk_size] and, for a non-empty input, at least one. *)
Theorem split_concat {A : Type} (l : list A) (chunk_size : nat) :
  (1 <= chunk_size)%nat ->
  exists chunks,
    CtCreation.split l chunk_size = CtCreation.Ok chunks /\
    concat chunks = l /\
    length chunks = Nat.max ((length l + chunk_size - 1) / chunk_size) 1 /\
    (forall i, (S i < length chunks)%nat ->
       length (nth i chunks []) = chunk_size) /\
    (length (last chunks []) <= chunk_size)%nat /\
    (l <> [] -> last chunks [] <> []).
Proof.
  intros Hcs. rewrite (split_positive l chunk_size Hcs).
  set (m := Nat.max ((length l + chunk_size - 1) / chunk_size) 1).
  set (chunk := fun i => firstn chunk_size (skipn (i * chunk_size) l)).
  assert (Hcover := num_splits_cover chunk_size (length l) Hcs). fold m in Hcover.
  assert (Htight := num_splits_tight chunk_size (length l) Hcs). fold m in Htight.
  assert (Hnth : forall i, (i < m)%nat ->
            nth i (map chunk (seq 0 m)) [] = chunk i).
  { intros i Hi. rewrite (nth_indep _ [] (chunk 0%nat)) by (rewrite length_map, length_seq; exact Hi).
    rewrite (map_nth chunk), seq_nth by exact Hi. reflexivity. }
  assert (Hlast : last (map chunk (seq 0 m)) [] = chunk (m - 1)%nat).
  { replace m with (S (m - 1)) at 1 by (subst m; lia).
    rewrite seq_S, map_app. simpl. apply last_last. }
  eexists. split; [reflexivity |].
  split; [| split; [| split; [| split]]].
  - unfold chunk. rewrite concat_chunks. apply firstn_all2. exact Hcover.
  - rewrite length_map, length_seq. reflexivity.
  - rewrite length_map, length_seq. intros i Hi.
    rewrite Hnth by lia. unfold chunk.
    rewrite length_firstn, length_skipn. nia.
  - rewrite Hlast. unfold chunk. rewrite length_firstn. lia.
  - intros Hne. rewrite Hlast. unfold chunk. intros E.
    apply (f_equal (@length A)) in E.
    rewrite length_firstn, length_skipn in E. simpl in E.
    assert (Hn : (1 <= length l)%nat) by (destruct l; [congruence | simpl; lia]).
    destruct Htight as [_ Ht]. specialize (Ht Hn). lia.
Qed.

Lemma split_concat_witness :
  exists chunks,
    CtCreation.split [1; 2; 3; 4; 5]%nat 2 = CtCreation.Ok chunks /\
    concat chunks = [1; 2; 3; 4; 5]%nat /\
    length chunks = 3%nat /\
    length (last chunks []) = 1%nat.
Proof.
  destruct (split_concat [1; 2; 3; 4; 5]%nat 2 ltac:(lia))
    as (chunks & Hsplit & Hconcat & Hlen & _ & _ & _).
  exists chunks. split; [exact Hsplit |]. split; [exact Hconcat |].
  split; [exact Hlen |].
  vm_compute in Hsplit. injection Hsplit as <-. reflexivity.
Defined.

Section InferenceFacts.
Import CtCreation.
Local Open Scope Q_scope.

Lemma linspace_length (lo hi : Q) (n : nat) : length (linspace lo hi n) = n.
Proof. unfold linspace. rewrite length_map, length_seq. reflexivity. Qed.

Lemma meshgrid_xy_flat_length (x y z : list Q) :
  length (meshgrid_xy_flat x y z) = (length y * (length x * length z))%nat.
Proof.
  unfold meshgrid_xy_flat.
  apply flat_map_constant_length, Forall_forall. intros yi _.
  apply flat_map_constant_length, Forall_forall. intros xj _.
  apply length_map.
Qed.

Lemma to_hounsfield_length (MU_AIR MU_WATER : Q) (factor : option Q)
    (output : list Q) :
  length (to_hounsfield MU_AIR MU_WATER factor output) = length output.
Proof.
  unfold to_hounsfield, scale_output. rewrite !length_map.
  destruct factor; [apply length_map | reflexivity].
Qed.

Lemma to_hounsfield_floor (MU_AIR MU_WATER : Q) (factor : option Q)
    (output : list Q) :
  Forall (Qle (- (1024))) (to_hounsfield MU_AIR MU_WATER factor output).
Proof.
  unfold to_hounsfield. apply Forall_map, Forall_forall.
  intros x _. apply clamp_min_floor.
Qed.

Lemma size_check_passes (n0 n1 n2 : Z) :
  (0 <= n0)%Z -> (0 <= n1)%Z -> (0 <= n2)%Z ->
  ((n0 <? 0) || (n1 <? 0) || (n2 <? 0))%Z = false.
Proof.
  intros H0 H1 H2.
  rewrite (proj2 (Z.ltb_ge n0 0) H0), (proj2 (Z.ltb_ge n1 0) H1),
          (proj2 (Z.ltb_ge n2 0) H2).
  reflexivity.
Qed.

Lemma run_inference_value (MU_AIR MU_WATER : Q) (model : XRayModel)
    (field : vec3 -> Q) (n0 n1 n2 : Z) (chunk_size : nat) (factor : option Q)
    (uninit : nat -> Q) :
  (forall points, model points = map field points) ->
  (1 <= chunk_size)%nat -> (0 <= n0)%Z -> (0 <= n1)%Z -> (0 <= n2)%Z ->
  run_inference MU_AIR MU_WATER (Some model) (n0, n1, n2) chunk_size factor uninit
  = Ok (to_hounsfield MU_AIR MU_WATER factor
          (map field (meshgrid_xy_flat (linspace (- (1)) 1 (Z.to_nat n0))
                                       (linspace (- (1)) 1 (Z.to_nat n1))
                                       (linspace (- (1)) 1 (Z.to_nat n2))))).
Proof.
  intros Hmodel Hcs H0 H1 H2. unfold run_inference.
  rewrite (size_check_passes n0 n1 n2 H0 H1 H2).
  rewrite (chunked_query_complete model field Hmodel _ chunk_size uninit Hcs).
  simpl bind. unfold written. rewrite map_map. reflexivity.
Qed.

Lemma run_inference_negative_size (MU_AIR MU_WATER : Q) (model : XRayModel)
    (n0 n1 n2 : Z) (chunk_size : nat) (factor : option Q) (uninit : nat -> Q) :
  (n0 < 0 \/ n1 < 0 \/ n2 < 0)%Z ->
  run_inference MU_AIR MU_WATER (Some model) (n0, n1, n2) chunk_size factor uninit
  = Err RuntimeError.
Proof.
  intros Hneg. unfold run_inference.
  assert (Hcheck : ((n0 <? 0) || (n1 <? 0) || (n2 <? 0))%Z = true).
  { destruct Hneg as [H | [H | H]]; apply Z.ltb_lt in H; rewrite H;
      rewrite ?Bool.orb_true_r; reflexivity. }
  rewrite Hcheck. reflexivity.
Qed.

End InferenceFacts.

(** X15: for a model that answers point by point, non-negative sizes and
    chunk sizes of at least 1, the volume of [run_inference] does not depend
    on the chunk size or on the initial content of the output buffer; it has
    n0 * n1 * n2 values, none below -1024. *)
Theorem run_inference_chunk_independent
    (MU_AIR MU_WATER : Q) (model : CtCreation.XRayModel)
    (field : CtCreation.vec3 -> Q) (n0 n1 n2 : Z) (chunk_size chunk_size' : nat)
    (factor : option Q) (uninit uninit' : nat -> Q) :
  (forall points, model points = map field points) ->
  (1 <= chunk_size)%nat -> (1 <= chunk_size')%nat ->
  (0 <= n0)%Z -> (0 <= n1)%Z -> (0 <= n2)%Z ->
  exists volume,
    CtCreation.run_inference MU_AIR MU_WATER (Some model) (n0, n1, n2)
                             chunk_size factor uninit
    = CtCreation.Ok volume /\
    CtCreation.run_inference MU_AIR MU_WATER (Some model) (n0, n1, n2)
                             chunk_size' factor uninit'
    = CtCreation.Ok volume /\
    length volume = (Z.to_nat n0 * Z.to_nat n1 * Z.to_nat n2)%nat /\
    Forall (Qle (- (1024))) volume.
Proof.
  intros Hmodel Hcs Hcs' H0 H1 H2. eexists.
  split; [apply (run_inference_value MU_AIR MU_WATER model field n0 n1 n2
                   chunk_size factor uninit Hmodel Hcs H0 H1 H2) |].
  split; [apply (run_inference_value MU_AIR MU_WATER model field n0 n1 n2
                   chunk_size' factor uninit' Hmodel Hcs' H0 H1 H2) |].
  split; [| apply to_hounsfield_floor].
  rewrite to_hounsfield_length, length_map, meshgrid_xy_flat_length,
          !linspace_length.
  lia.
Qed.

Lemma run_inference_chunk_independent_witness :
  exists volume,
    CtCreation.run_inference 0.0002 0.2 (Some (map (fun _ => 0.2%Q))) (2, 2, 2)%Z
                             3 None (fun _ => 0%Q)
    = CtCreation.Ok volume /\
    CtCreation.run_inference 0.0002 0.2 (Some (map (fun _ => 0.2%Q))) (2, 2, 2)%Z
                             8 None (fun _ => 1%Q)
    = CtCreation.Ok volume /\
    length volume = 8%nat /\
    Forall (Qle (- (1024))) volume.
Proof.
  apply (run_inference_chunk_independent 0.0002 0.2 (map (fun _ => 0.2%Q))
           (fun _ => 0.2%Q) 2 2 2 3 8 None (fun _ => 0%Q) (fun _ => 1%Q));
    try reflexivity; lia.
Defined.

(** X16: [run_inference] fails on a negative size and on a chunk size of 0
    over a lattice with at least one voxel; with a chunk size of 0 and an empty
    lattice it returns the empty volume. *)
Theorem run_inference_errors
    (MU_AIR MU_WATER : Q) (model : CtCreation.XRayModel) (n0 n1 n2 : Z)
    (chunk_size : nat) (factor : option Q) (uninit : nat -> Q) :
  ((n0 < 0 \/ n1 < 0 \/ n2 < 0)%Z ->
   CtCreation.run_inference MU_AIR MU_WATER (Some model) (n0, n1, n2)
                            chunk_size factor uninit
   = CtCreation.Err CtCreation.RuntimeError) /\
  ((0 < n0)%Z -> (0 < n1)%Z -> (0 < n2)%Z ->
   CtCreation.run_inference MU_AIR MU_WATER (Some model) (n0, n1, n2)
                            0 factor uninit
   = CtCreation.Err CtCreation.RuntimeError) /\
  ((0 <= n0)%Z -> (0 <= n1)%Z -> (0 <= n2)%Z -> (n0 * n1 * n2 = 0)%Z ->
   model [] = [] ->
   CtCreation.run_inference MU_AIR MU_WATER (Some model) (n0, n1, n2)
                            0 factor uninit
   = CtCreation.Ok []).
Proof.
  split; [| split].
  - apply run_inference_negative_size.
  - intros H0 H1 H2. unfold CtCreation.run_inference.
    rewrite size_check_passes by lia.
    set (coords := CtCreation.meshgrid_xy_flat _ _ _).
    assert (Hlen : length coords
                   = (Z.to_nat n1 * (Z.to_nat n0 * Z.to_nat n2))%nat)
      by (subst coords; rewrite meshgrid_xy_flat_length, !linspace_length;
          reflexivity).
    destruct coords as [| p coords]; [simpl in Hlen; nia | reflexivity].
  - intros H0 H1 H2 Hzero Hmodel. unfold CtCreation.run_inference.
    rewrite size_check_passes by lia.
    set (coords := CtCreation.meshgrid_xy_flat _ _ _).
    assert (Hlen : length coords
                   = (Z.to_nat n1 * (Z.to_nat n0 * Z.to_nat n2))%nat)
      by (subst coords; rewrite meshgrid_xy_flat_length, !linspace_length;
          reflexivity).
    destruct coords as [| p coords]; [| simpl in Hlen; nia].
    unfold CtCreation.chunked_query. simpl. rewrite Hmodel. simpl.
    unfold CtCreation.to_hounsfield, CtCreation.scale_output.
    destruct factor; reflexivity.
Qed.

Lemma run_inference_errors_witness :
  CtCreation.run_inference 0.0002 0.2 (Some (map (fun _ => 0.2%Q))) (2, - (1), 2)%Z
                           3 None (fun _ => 0%Q)
  = CtCreation.Err CtCreation.RuntimeError /\
  CtCreation.run_inference 0.0002 0.2 (Some (map (fun _ => 0.2%Q))) (2, 2, 2)%Z
                           0 None (fun _ => 0%Q)
  = CtCreation.Err CtCreation.RuntimeError /\
  CtCreation.run_inference 0.0002 0.2 (Some (map (fun _ => 0.2%Q))) (2, 0, 2)%Z
                           0 None (fun _ => 0%Q)
  = CtCreation.Ok [].
Proof.
  destruct (run_inference_errors 0.0002 0.2 (map (fun _ => 0.2%Q)) 2 (- (1)) 2
              3 None (fun _ => 0%Q)) as (Hneg & _ & _).
  destruct (run_inference_errors 0.0002 0.2 (map (fun _ => 0.2%Q)) 2 2 2
              3 None (fun _ => 0%Q)) as (_ & Hzero & _).
  destruct (run_inference_errors 0.0002 0.2 (map (fun _ => 0.2%Q)) 2 0 2
              3 None (fun _ => 0%Q)) as (_ & _ & Hempty).
  split; [apply Hneg; lia |]. split; [apply Hzero; lia |].
  apply Hempty; try lia; reflexivity.
Defined.

Section GridFacts.
Import CtCreation.
Local Open Scope Q_scope.

Lemma linspace_nth (lo hi : Q) (n i : nat) :
  (i < n)%nat ->
  nth i (linspace lo hi n) 0
  = lo + inject_Z (Z.of_nat i) * ((hi - lo) / inject_Z (Z.of_nat (n - 1))).
Proof.
  intros Hi. unfold linspace.
  set (f := fun j : nat =>
              lo + inject_Z (Z.of_nat j) * ((hi - lo) / inject_Z (Z.of_nat (n - 1)))).
  rewrite (nth_indep (map f (seq 0 n)) 0 (f 0%nat))
    by (rewrite length_map, length_seq; exact Hi).
  rewrite (map_nth f), seq_nth by exact Hi. reflexivity.
Qed.

Lemma linspace_step_bounds (lo hi : Q) (n i : nat) :
  lo <= hi -> (i < n)%nat ->
  0 <= inject_Z (Z.of_nat i) * ((hi - lo) / inject_Z (Z.of_nat (n - 1))) <= hi - lo.
Proof.
  intros Hle Hi.
  set (m := inject_Z (Z.of_nat (n - 1))).
  assert (Hm : 0 <= m) by (subst m; rewrite <- (Zle_Qle 0); lia).
  assert (Hi0 : 0 <= inject_Z (Z.of_nat i)) by (rewrite <- (Zle_Qle 0); lia).
  assert (Him : inject_Z (Z.of_nat i) <= m) by (subst m; rewrite <- Zle_Qle; lia).
  assert (Hq : 0 <= (hi - lo) / m).
  { unfold Qdiv. apply Qmult_le_0_compat; [lra | apply Qinv_le_0_compat; exact Hm]. }
  split; [apply Qmult_le_0_compat; assumption |].
  destruct (Qeq_dec m 0) as [Hz | Hnz].
  - assert (Hiz : inject_Z (Z.of_nat i) == 0) by lra.
    rewrite Hiz. lra.
  - apply Qle_trans with (m * ((hi - lo) / m)).
    + apply Qmult_le_compat_r; assumption.
    + rewrite Qmult_div_r by exact Hnz. apply Qle_refl.
Qed.

Lemma clamp_min_monotone (x y m : Q) :
  x <= y -> clamp_min x m <= clamp_min y m.
Proof.
  intros Hxy. unfold clamp_min.
  destruct (Qle_bool m x) eqn:Ex; destruct (Qle_bool m y) eqn:Ey.
  - exact Hxy.
  - apply Qle_bool_iff in Ex.
    assert (Hn : ~ m <= y) by (rewrite <- Qle_bool_iff, Ey; discriminate).
    exfalso. apply Hn. apply Qle_trans with (1 := Ex). exact Hxy.
  - apply Qle_bool_iff in Ey. exact Ey.
  - apply Qle_refl.
Qed.

End GridFacts.

(** X17: [linspace lo hi n] has [n] values; the first is [lo], for n >= 2
    the last is [hi], and for lo <= hi all of them lie in [lo, hi]. *)
Theorem linspace_endpoints (lo hi : Q) (n : nat) :
  length (CtCreation.linspace lo hi n) = n /\
  ((1 <= n)%nat -> (nth 0 (CtCreation.linspace lo hi n) 0 == lo)%Q) /\
  ((2 <= n)%nat -> (nth (n - 1) (CtCreation.linspace lo hi n) 0 == hi)%Q) /\
  ((lo <= hi)%Q ->
   Forall (fun v => lo <= v <= hi)%Q (CtCreation.linspace lo hi n)).
Proof.
  split; [apply linspace_length |]. split; [| split].
  - intros Hn. rewrite linspace_nth by lia. simpl. ring.
  - intros Hn. rewrite linspace_nth by lia.
    rewrite Qmult_div_r; [ring |].
    intros E. assert (H : (0 < inject_Z (Z.of_nat (n - 1)))%Q)
      by (rewrite <- (Zlt_Qlt 0); lia).
    rewrite E in H. apply (Qlt_irrefl 0). exact H.
  - intros Hle. apply Forall_forall. intros v Hv.
    apply (In_nth _ _ 0%Q) in Hv as (i & Hi & <-).
    rewrite linspace_length in Hi. rewrite linspace_nth by exact Hi.
    assert (H := linspace_step_bounds lo hi n i Hle Hi). lra.
Qed.

Lemma linspace_endpoints_witness :
  (nth 0 (CtCreation.linspace (- (1)) 1 5) 0 == - (1))%Q /\
  (nth 4 (CtCreation.linspace (- (1)) 1 5) 0 == 1)%Q /\
  Forall (fun v => - (1) <= v <= 1)%Q (CtCreation.linspace (- (1)) 1 5).
Proof.
  destruct (linspace_endpoints (- (1)) 1 5) as (_ & Hfirst & Hlast & Hrange).
  split; [apply Hfirst; lia |]. split; [apply Hlast; lia |].
  apply Hrange. vm_compute. discriminate.
Defined.

(** X18: the flattened grid holds exactly the points (x_j, y_i, z_k) with
    x_j from x, y_i from y and z_k from z, and has
    length y * length x * length z entries. *)
Theorem meshgrid_xy_flat_points (x y z : list Q) (a b c : Q) :
  length (CtCreation.meshgrid_xy_flat x y z)
  = (length y * (length x * length z))%nat /\
  (In (a, b, c) (CtCreation.meshgrid_xy_flat x y z) <-> In a x /\ In b y /\ In c z).
Proof.
  split; [apply meshgrid_xy_flat_length |].
  unfold CtCreation.meshgrid_xy_flat. rewrite in_flat_map. split.
  - intros (yi & Hy & Hin). apply in_flat_map in Hin as (xj & Hx & Hin).
    apply in_map_iff in Hin as (zk & E & Hz). injection E as <- <- <-.
    repeat split; assumption.
  - intros (Ha & Hb & Hc). exists b. split; [exact Hb |].
    apply in_flat_map. exists a. split; [exact Ha |].
    apply in_map_iff. exists c. split; [reflexivity | exact Hc].
Qed.

(** X19: with [MU_AIR < MU_WATER] the calibration keeps the number of
    values, is monotone (a larger scaled model output never gives a smaller
    Hounsfield value) and sends a scaled model output equal to [MU_AIR] to
    -1000. *)
Theorem to_hounsfield_monotone
    (MU_AIR MU_WATER : Q) (factor : option Q) (output : list Q) (i j : nat) :
  (MU_AIR < MU_WATER)%Q -> (i < length output)%nat -> (j < length output)%nat ->
  let scaled := CtCreation.scale_output factor output in
  let hu := CtCreation.to_hounsfield MU_AIR MU_WATER factor output in
  length hu = length output /\
  (nth i scaled 0 <= nth j scaled 0 -> nth i hu 0 <= nth j hu 0)%Q /\
  (nth i scaled 0 == MU_AIR -> nth i hu 0 == - (1000))%Q.
Proof.
  intros Hlt Hi Hj scaled hu. subst hu.
  split; [apply to_hounsfield_length |].
  rewrite !to_hounsfield_nth by assumption. fold scaled.
  set (xi := nth i scaled 0%Q). set (xj := nth j scaled 0%Q).
  assert (Hinv : (0 <= / (MU_WATER - MU_AIR))%Q)
    by (apply Qinv_le_0_compat; lra).
  split.
  - intros Hle.
    assert (Hraw : (1000 * (xi - MU_WATER) / (MU_WATER - MU_AIR)
                    <= 1000 * (xj - MU_WATER) / (MU_WATER - MU_AIR))%Q).
    { unfold Qdiv. apply Qmult_le_compat_r; [lra | exact Hinv]. }
    apply clamp_min_monotone. exact Hraw.
  - intros Hair.
    assert (Hraw : (1000 * (xi - MU_WATER) / (MU_WATER - MU_AIR) == - (1000))%Q)
      by (rewrite Hair; field; lra).
    rewrite clamp_min_above by (rewrite Hraw; discriminate).
    exact Hraw.
Qed.

Lemma to_hounsfield_monotone_witness :
  (nth 0 (CtCreation.to_hounsfield 0.0002 0.2 None [0.0002; 0.1]%Q) 0
   <= nth 1 (CtCreation.to_hounsfield 0.0002 0.2 None [0.0002; 0.1]%Q) 0)%Q /\
  (nth 0 (CtCreation.to_hounsfield 0.0002 0.2 None [0.0002; 0.1]%Q) 0
   == - (1000))%Q.
Proof.
  assert (Hlt : (0.0002 < 0.2)%Q) by reflexivity.
  assert (H0 : (0 < length [0.0002; 0.1]%Q)%nat) by (simpl; lia).
  assert (H1 : (1 < length [0.0002; 0.1]%Q)%nat) by (simpl; lia).
  destruct (to_hounsfield_monotone 0.0002 0.2 None [0.0002; 0.1]%Q 0 1 Hlt H0 H1)
    as (_ & Hmono & Hair).
  split.
  - apply Hmono. vm_compute. discriminate.
  - apply Hair. reflexivity.
Defined.

Lemma meshgrid_xy_flat_points_witness :
  In (2, 3, 5)%Q (CtCreation.meshgrid_xy_flat [1; 2]%Q [3; 4]%Q [5]%Q).
Proof.
  apply (proj2 (proj2 (meshgrid_xy_flat_points [1; 2]%Q [3; 4]%Q [5]%Q 2 3 5))).
  simpl. auto.
Defined.

(** X20: with only a voxel count (n0, n1, n2) of positive entries, a model
    that answers point by point (the fine model, or the coarse model when
    there is no fine one) and a chunk size of at least 1, [generate_ct] hands
    over a volume of n0 * n1 * n2 values, none below -1024, and a voxel spacing
    that preserves the physical extent: count times spacing equals detector
    size times detector spacing on every axis. *)
Theorem generate_ct_voxel_count
    (MU_AIR MU_WATER : Q) (conf : CtCreation.InferenceConfig) (uninit : nat -> Q)
    (model : CtCreation.XRayModel) (field : CtCreation.vec3 -> Q) (n0 n1 n2 : Z) :
  CtCreation.voxel_spacing conf = None ->
  CtCreation.image_size conf = Some (n0, n1, n2) ->
  (0 < n0)%Z -> (0 < n1)%Z -> (0 < n2)%Z ->
  CtCreation.or_model (CtCreation.fine_model conf) (CtCreation.coarse_model conf)
  = Some model ->
  (forall points, model points = map field points) ->
  (1 <= CtCreation.chunk_size conf)%nat ->
  exists volume new_spacing,
    CtCreation.generate_ct MU_AIR MU_WATER conf uninit
    = CtCreation.Ok (volume, new_spacing) /\
    length volume = (Z.to_nat n0 * Z.to_nat n1 * Z.to_nat n2)%nat /\
    Forall (Qle (- (1024))) volume /\
    triple_eq (extent (n0, n1, n2) new_spacing)
              (CtCreation.zip3 Qmult (CtCreation.original_size conf)
                               (CtCreation.original_spacing conf)).
Proof.
  intros Hvs His H0 H1 H2 Hm Hmodel Hcs.
  destruct (generate_ct_image_size_extent conf n0 n1 n2 Hvs His H0 H1 H2)
    as (new_spacing & Hsize & Hextent).
  eexists. exists new_spacing. split.
  - unfold CtCreation.generate_ct. rewrite Hsize, Hm.
    rewrite (run_inference_value MU_AIR MU_WATER model field n0 n1 n2 _ _ uninit
               Hmodel Hcs); try lia.
    reflexivity.
  - split; [| split; [apply to_hounsfield_floor | exact Hextent]].
    rewrite to_hounsfield_length, length_map, meshgrid_xy_flat_length,
            !linspace_length.
    lia.
Qed.

Lemma generate_ct_voxel_count_witness :
  exists volume new_spacing,
    CtCreation.generate_ct 0.0002 0.2
      {| CtCreation.xray_metadata :=
           {| CtCreation.size := (4, 6)%Z; CtCreation.spacing := (1, 0.5)%Q |};
         CtCreation.voxel_spacing := None;
         CtCreation.image_size := Some (2, 2, 3)%Z;
         CtCreation.fine_model := None;
         CtCreation.coarse_model := Some (map (fun _ => 0.2%Q));
         CtCreation.chunk_size := 5;
         CtCreation.attenuation_scaling_factor := None |} (fun _ => 0%Q)
    = CtCreation.Ok (volume, new_spacing) /\
    length volume = 12%nat /\
    triple_eq (extent (2, 2, 3)%Z new_spacing) (4, 4, 3)%Q.
Proof.
  destruct (generate_ct_voxel_count 0.0002 0.2
              {| CtCreation.xray_metadata :=
                   {| CtCreation.size := (4, 6)%Z; CtCreation.spacing := (1, 0.5)%Q |};
                 CtCreation.voxel_spacing := None;
                 CtCreation.image_size := Some (2, 2, 3)%Z;
                 CtCreation.fine_model := None;
                 CtCreation.coarse_model := Some (map (fun _ => 0.2%Q));
                 CtCreation.chunk_size := 5;
                 CtCreation.attenuation_scaling_factor := None |} (fun _ => 0%Q)
              (map (fun _ => 0.2%Q)) (fun _ => 0.2%Q) 2 2 3
              eq_refl eq_refl ltac:(lia) ltac:(lia) ltac:(lia) eq_refl
              ltac:(reflexivity) ltac:(simpl; lia))
    as (volume & new_spacing & Hrun & Hlen & _ & Hextent).
  exists volume, new_spacing. split; [exact Hrun |]. split; [exact Hlen |].
  destruct new_spacing as [[a b] c]. simpl in Hextent |- *.
  destruct Hextent as (Ha & Hb & Hc). repeat split.
  - rewrite Ha. reflexivity.
  - rewrite Hb. reflexivity.
  - rewrite Hc. reflexivity.
Defined.

Section SliceFacts.
Import CtCreation.

Lemma slice_assign_ok_form (output : list cell) (start stop : nat) (src : list Q)
    (output' : list cell) :
  slice_assign output start stop src = Ok output' ->
  let lo := Nat.min start (length output) in
  let hi := Nat.max lo (Nat.min stop (length output)) in
  exists d,
    length d = (hi - lo)%nat /\
    (forall j, (j < hi - lo)%nat ->
       nth_error d j = nth_error src (if (length src =? 1)%nat then 0 else j)) /\
    output' = firstn lo output
              ++ Tensor.map2 store (firstn (hi - lo) (skipn lo output)) d
              ++ skipn hi output.
Proof.
  intros H. cbv zeta. unfold slice_assign in H.
  set (lo := Nat.min start (length output)) in *.
  set (hi := Nat.max lo (Nat.min stop (length output))) in *.
  destruct (length src =? hi - lo)%nat eqn:E.
  - apply Nat.eqb_eq in E. injection H as <-. exists src.
    split; [exact E |]. split; [| reflexivity].
    intros j Hj. destruct (length src =? 1)%nat eqn:E1; [| reflexivity].
    apply Nat.eqb_eq in E1. f_equal. lia.
  - destruct src as [| v [| w src]]; try discriminate.
    injection H as <-. exists (repeat v (hi - lo)).
    split; [apply repeat_length |]. split; [| reflexivity].
    intros j Hj. simpl. apply nth_error_repeat. exact Hj.
Qed.

Lemma nth_error_map2_store (cells : list cell) (d : list Q) (j : nat) (c : cell) (v : Q) :
  nth_error cells j = Some c -> nth_error d j = Some v ->
  nth_error (Tensor.map2 store cells d) j = Some (store c v).
Proof. apply nth_error_map2. Qed.

End SliceFacts.

(** X22: a slice assignment that succeeds keeps the length of the buffer,
    leaves every element outside [start, stop) as it was, and stores exactly
    once to every element inside: the element at [i] receives the value of the
    source at [i - start], or the single value of a one-element source. *)
Theorem slice_assign_frame
    (output : list CtCreation.cell) (start stop : nat) (src : list Q)
    (output' : list CtCreation.cell) :
  CtCreation.slice_assign output start stop src = CtCreation.Ok output' ->
  length output' = length output /\
  (forall i, (i < start \/ stop <= i)%nat ->
     nth_error output' i = nth_error output i) /\
  (forall i, (start <= i < stop)%nat -> (i < length output)%nat ->
     exists c c',
       nth_error output i = Some c /\ nth_error output' i = Some c' /\
       CtCreation.writes c' = S (CtCreation.writes c) /\
       nth_error src (if (length src =? 1)%nat then 0 else i - start)%nat
       = Some (CtCreation.value c')).
Proof.
  intros H. apply slice_assign_ok_form in H. cbv zeta in H.
  set (lo := Nat.min start (length output)) in *.
  set (hi := Nat.max lo (Nat.min stop (length output))) in *.
  destruct H as (d & Hd & Hsrc & ->).
  assert (Hlo : (lo <= length output)%nat) by (subst lo; lia).
  assert (Hhi : (lo <= hi <= length output)%nat) by (subst hi lo; lia).
  assert (Hpre : length (firstn lo output) = lo)
    by (rewrite length_firstn; lia).
  assert (Hcells : length (firstn (hi - lo) (skipn lo output)) = (hi - lo)%nat)
    by (rewrite length_firstn, length_skipn; lia).
  assert (Hmid : length (Tensor.map2 CtCreation.store
                           (firstn (hi - lo) (skipn lo output)) d) = (hi - lo)%nat)
    by (rewrite map2_length, Hcells, Hd; lia).
  assert (Hlen : length (firstn lo output
                         ++ Tensor.map2 CtCreation.store
                              (firstn (hi - lo) (skipn lo output)) d
                         ++ skipn hi output) = length output)
    by (rewrite !length_app, Hpre, Hmid, length_skipn; lia).
  split; [exact Hlen |]. split.
  - intros i Hi.
    destruct (Nat.lt_ge_cases i (length output)) as [Hin | Hout].
    + destruct (Nat.lt_ge_cases i lo) as [Hlt | Hge].
      * rewrite nth_error_app1 by lia.
        rewrite nth_error_firstn. apply Nat.ltb_lt in Hlt. rewrite Hlt. reflexivity.
      * assert (Hih : (hi <= i)%nat) by (subst hi lo; lia).
        rewrite nth_error_app2 by lia. rewrite Hpre.
        rewrite nth_error_app2 by lia. rewrite Hmid.
        rewrite nth_error_skipn. f_equal. lia.
    + transitivity (@None CtCreation.cell).
      * apply nth_error_None. rewrite Hlen. exact Hout.
      * symmetry. apply nth_error_None. exact Hout.
  - intros i Hi Hin.
    assert (Hs : lo = start) by (subst lo; lia).
    assert (Hih : (i < hi)%nat) by (subst hi lo; lia).
    assert (Hc : nth_error (firstn (hi - lo) (skipn lo output)) (i - lo)
                 = nth_error output i).
    { rewrite nth_error_firstn.
      assert (E : (i - lo <? hi - lo)%nat = true) by (apply Nat.ltb_lt; lia).
      rewrite E, nth_error_skipn. f_equal. lia. }
    destruct (nth_error output i) as [c |] eqn:Ec;
      [| apply nth_error_None in Ec; lia].
    assert (Hv := Hsrc (i - lo)%nat ltac:(lia)).
    destruct (nth_error d (i - lo)) as [v |] eqn:Ev;
      [| apply nth_error_None in Ev; lia].
    exists c, (CtCreation.store c v). split; [reflexivity |]. split; [| split].
    + rewrite nth_error_app2 by lia. rewrite Hpre.
      rewrite nth_error_app1 by lia.
      apply nth_error_map2_store; assumption.
    + reflexivity.
    + rewrite <- Hs. symmetry. exact Hv.
Qed.

Lemma slice_assign_frame_witness :
  exists output',
    CtCreation.slice_assign (CtCreation.torch_empty (fun _ => 0%Q) 4) 2 9 [1; 2]%Q
    = CtCreation.Ok output' /\
    length output' = 4%nat /\
    nth_error output' 1 = nth_error (CtCreation.torch_empty (fun _ => 0%Q) 4) 1 /\
    exists c', nth_error output' 3 = Some c' /\
               CtCreation.writes c' = 1%nat /\ CtCreation.value c' = 2%Q.
Proof.
  eexists. split; [reflexivity |].
  destruct (slice_assign_frame (CtCreation.torch_empty (fun _ => 0%Q) 4) 2 9
              [1; 2]%Q _ eq_refl) as (Hlen & Hframe & Hin).
  split; [exact Hlen |]. split; [apply Hframe; lia |].
  destruct (Hin 3%nat ltac:(lia) ltac:(simpl; lia)) as (c & c' & Hc & Hc' & Hw & Hv).
  exists c'. split; [exact Hc' |].
  simpl in Hc. injection Hc as <-. simpl in Hw, Hv.
  split; [exact Hw | congruence].
Defined.

(** * The fine pass does not depend on the order of the fine samples *)

Section SortedUnique.
Import Rays.
Local Open Scope Q_scope.

Lemma strongly_sorted_remove (p s : list Q) (a : Q) :
  StronglySorted Qle (p ++ a :: s) ->
  StronglySorted Qle (p ++ s) /\ Forall (fun x => x <= a) p.
Proof.
  induction p as [| x p IH]; simpl; intros H.
  - apply StronglySorted_inv in H as [Hs _]. split; [exact Hs | constructor].
  - apply StronglySorted_inv in H as [Hs Hall].
    destruct (IH Hs) as [Hps Hle]. split.
    + constructor; [exact Hps |].
      apply Forall_app in Hall as [Hp Has]. apply Forall_app. split; [exact Hp |].
      inversion Has; assumption.
    + constructor; [| exact Hle].
      apply Forall_app in Hall as [_ Has]. inversion Has; assumption.
Qed.

Lemma insert_equal_head (p s l : list Q) (a a' : Q) :
  a' == a -> Forall (fun x => x == a) p ->
  Forall2 Qeq l (p ++ s) -> Forall2 Qeq (a' :: l) (p ++ a :: s).
Proof.
  intros Ha Hp. revert l a' Ha.
  induction Hp as [| x p Hx Hp IH]; intros l a' Ha H; simpl in *.
  - constructor; assumption.
  - inversion H as [| y z l' r Hyx Hrest]; subst.
    constructor; [rewrite Ha, Hx; reflexivity |].
    apply IH; [rewrite Hyx; exact Hx | exact Hrest].
Qed.

Lemma ascending_permutation_unique (l1 l2 : list Q) :
  StronglySorted Qle l1 -> StronglySorted Qle l2 -> Permutation l1 l2 ->
  Forall2 Qeq l1 l2.
Proof.
  intros H1. revert l2. induction H1 as [| a l1 Hs1 IH Hmin]; intros l2 H2 Hperm.
  - apply Permutation_nil in Hperm. subst. constructor.
  - assert (Hin : In a l2) by (apply (Permutation_in _ Hperm); left; reflexivity).
    apply in_split in Hin as (p & s & ->).
    assert (Hperm' : Permutation l1 (p ++ s))
      by (apply Permutation_cons_app_inv with a; exact Hperm).
    destruct (strongly_sorted_remove p s a H2) as [Hps Hle].
    apply insert_equal_head; [reflexivity | | apply IH; assumption].
    apply Forall_forall. intros x Hx.
    assert (Hxa : x <= a) by (rewrite Forall_forall in Hle; apply Hle; exact Hx).
    assert (Hax : a <= x).
    { rewrite Forall_forall in Hmin. apply Hmin.
      apply (Permutation_in _ (Permutation_sym Hperm')).
      apply in_or_app. left. exact Hx. }
    apply Qle_antisym; assumption.
Qed.

Lemma sort_permutation_invariant (l l' : list Q) :
  Permutation l l' -> Forall2 Qeq (QSort.sort l) (QSort.sort l').
Proof.
  intros Hperm. apply ascending_permutation_unique.
  - apply Sorted_StronglySorted; [intros x y z; apply Qle_trans | apply sort_ascending].
  - apply Sorted_StronglySorted; [intros x y z; apply Qle_trans | apply sort_ascending].
  - apply Permutation_trans with l; [apply Permutation_sym, QSort.Permuted_sort |].
    apply Permutation_trans with l'; [exact Hperm | apply QSort.Permuted_sort].
Qed.

Lemma diff_Qeq (l l' : list Q) :
  Forall2 Qeq l l' -> Forall2 Qeq (diff l) (diff l').
Proof.
  intros H. induction H as [| a a' l l' Ha H IH]; [constructor |].
  destruct H as [| b b' l l' Hb H]; [constructor |].
  change (Forall2 Qeq ((b - a) :: diff (b :: l)) ((b' - a') :: diff (b' :: l'))).
  constructor; [rewrite Ha, Hb; reflexivity | exact IH].
Qed.

Lemma Forall2_Qeq_refl (l : list Q) : Forall2 Qeq l l.
Proof. induction l; constructor; [reflexivity | assumption]. Qed.

Lemma merged_t_samples_Qeq (coarse fine fine' : list (list Q)) :
  Forall2 (@Permutation Q) fine fine' ->
  Forall2 (Forall2 Qeq) (merged_t_samples coarse fine) (merged_t_samples coarse fine').
Proof.
  intros H. revert coarse. unfold merged_t_samples, sort_dim1, Tensor.cat_dim1, Tensor.map2.
  induction H as [| f f' fine fine' Hf H IH]; intros [| c coarse]; simpl;
    try constructor.
  - apply sort_permutation_invariant, Permutation_app_head. exact Hf.
  - apply IH.
Qed.

Lemma get_sampling_distances_Qeq (t t' : list (list Q)) (ray_bounds : list (Q * Q)) :
  Forall2 (Forall2 Qeq) t t' ->
  Forall2 (Forall2 Qeq) (get_sampling_distances t (Some ray_bounds))
                        (get_sampling_distances t' (Some ray_bounds)).
Proof.
  intros H. unfold get_sampling_distances.
  rewrite <- (Forall2_length H).
  generalize (Tensor.map2 (Tensor.map2 Qmult) (ones (length t))
                (map (fun b : Q * Q => [snd b]) ray_bounds)).
  unfold torch_diff_append, Tensor.cat_dim1, Tensor.map2.
  induction H as [| r r' t t' Hr H IH]; intros [| x lim]; simpl; try constructor.
  - apply diff_Qeq, Forall2_app; [exact Hr | apply Forall2_Qeq_refl].
  - apply IH.
Qed.

End SortedUnique.

(** X23: the distances of the fine pass do not depend on the order in which
    the fine strategy returns the t values of a ray: two strategies whose rows
    are permutations of each other give equal distances. *)
Theorem get_fine_samples_order_insensitive
    (strategy strategy' : nat -> list (list Q) -> list (list Q) -> list (list Q))
    (start_pos heading_vector : list Rays.vec3) (ray_bounds : list (Q * Q))
    (coarse_ts values dists : list (list Q)) (n : nat) :
  Forall2 (@Permutation Q) (strategy n values dists) (strategy' n values dists) ->
  Forall2 (Forall2 Qeq)
    (snd (Rays.get_fine_samples strategy start_pos heading_vector ray_bounds
            coarse_ts values dists n))
    (snd (Rays.get_fine_samples strategy' start_pos heading_vector ray_bounds
            coarse_ts values dists n)).
Proof.
  intros H. unfold Rays.get_fine_samples. cbn [snd].
  apply get_sampling_distances_Qeq, merged_t_samples_Qeq. exact H.
Qed.

Lemma get_fine_samples_order_insensitive_witness :
  Forall2 (Forall2 Qeq)
    (snd (Rays.get_fine_samples (fun _ _ _ => [[0.3; 0.7]%Q])
            [(1, 0, 0)%Q] [(- (1), 0, 0)%Q] [(0, 1)%Q]
            [[0.1; 0.5; 0.9]%Q] [[0; 0; 0]%Q] [[0.4; 0.4; 0.1]%Q] 2))
    (snd (Rays.get_fine_samples (fun _ _ _ => [[0.7; 0.3]%Q])
            [(1, 0, 0)%Q] [(- (1), 0, 0)%Q] [(0, 1)%Q]
            [[0.1; 0.5; 0.9]%Q] [[0; 0; 0]%Q] [[0.4; 0.4; 0.1]%Q] 2)).
Proof.
  apply (get_fine_samples_order_insensitive
           (fun _ _ _ => [[0.3; 0.7]%Q]) (fun _ _ _ => [[0.7; 0.3]%Q])).
  constructor; [apply perm_swap | constructor].
Defined.

(** X24: [generate_ct] with a lattice size selected fails with an attribute
    error when the configuration has neither a fine nor a coarse model, and
    with a runtime error when a requested voxel count is negative. *)
Theorem generate_ct_errors
    (MU_AIR MU_WATER : Q) (conf : CtCreation.InferenceConfig) (uninit : nat -> Q) :
  (CtCreation.voxel_spacing conf <> None \/ CtCreation.image_size conf <> None ->
   CtCreation.fine_model conf = None -> CtCreation.coarse_model conf = None ->
   CtCreation.generate_ct MU_AIR MU_WATER conf uninit
   = CtCreation.Err CtCreation.AttributeError) /\
  (forall n0 n1 n2 model,
     CtCreation.voxel_spacing conf = None ->
     CtCreation.image_size conf = Some (n0, n1, n2) ->
     (n0 < 0 \/ n1 < 0 \/ n2 < 0)%Z ->
     CtCreation.or_model (CtCreation.fine_model conf) (CtCreation.coarse_model conf)
     = Some model ->
     CtCreation.generate_ct MU_AIR MU_WATER conf uninit
     = CtCreation.Err CtCreation.RuntimeError).
Proof.
  split.
  - intros Hsel Hf Hc. unfold CtCreation.generate_ct, CtCreation.determine_size.
    rewrite Hf, Hc.
    destruct (CtCreation.voxel_spacing conf) as [vs |].
    + reflexivity.
    + destruct (CtCreation.image_size conf) as [sz |]; [reflexivity |].
      destruct Hsel as [H | H]; congruence.
  - intros n0 n1 n2 model Hvs His Hneg Hm.
    unfold CtCreation.generate_ct, CtCreation.determine_size.
    rewrite Hvs, His, Hm.
    rewrite (run_inference_negative_size MU_AIR MU_WATER model n0 n1 n2
               (CtCreation.chunk_size conf)
               (CtCreation.attenuation_scaling_factor conf) uninit Hneg).
    reflexivity.
Qed.

Lemma generate_ct_errors_witness :
  CtCreation.generate_ct 0.0002 0.2
    {| CtCreation.xray_metadata :=
         {| CtCreation.size := (4, 6)%Z; CtCreation.spacing := (1, 0.5)%Q |};
       CtCreation.voxel_spacing := Some (1, 1, 1)%Q;
       CtCreation.image_size := None;
       CtCreation.fine_model := None;
       CtCreation.coarse_model := None;
       CtCreation.chunk_size := 5;
       CtCreation.attenuation_scaling_factor := None |} (fun _ => 0%Q)
  = CtCreation.Err CtCreation.AttributeError /\
  CtCreation.generate_ct 0.0002 0.2
    {| CtCreation.xray_metadata :=
         {| CtCreation.size := (4, 6)%Z; CtCreation.spacing := (1, 0.5)%Q |};
       CtCreation.voxel_spacing := None;
       CtCreation.image_size := Some (2, - (1), 2)%Z;
       CtCreation.fine_model := Some (map (fun _ => 0.2%Q));
       CtCreation.coarse_model := None;
       CtCreation.chunk_size := 5;
       CtCreation.attenuation_scaling_factor := None |} (fun _ => 0%Q)
  = CtCreation.Err CtCreation.RuntimeError.
Proof.
  split.
  - apply (proj1 (generate_ct_errors 0.0002 0.2 _ (fun _ => 0%Q)));
      [left; discriminate | reflexivity | reflexivity].
  - apply (proj2 (generate_ct_errors 0.0002 0.2 _ (fun _ => 0%Q))
             2%Z (- (1))%Z 2%Z (map (fun _ => 0.2%Q)));
      [reflexivity | reflexivity | lia | reflexivity].
Defined.

(** * The fine pass: what the points and the distances are *)

Section FinePassOutputs.
Import Rays.
Local Open Scope Q_scope.



End FinePassOutputs.


